(** * collage-bop: the tracking pipeline of [collage_tracker.py] and its variants

    A shallow embedding of the pipeline logic of the repository:

    - [src/src/collage_tracker.py] (class [OptimizedTracker]): the
      definitions at top level;
    - [src/scrap_bin/design_history_tracker.py] (the variant with motion
      skipping and velocity prediction): module [ScrapBin];
    - [src/src/design_history_tracker.py] (class [SimplifiedTracker]):
      module [Simplified].

    Python floats are modelled as rationals [Q] with exact arithmetic, dicts
    as [gmap], sets as [gset], [str] on integers as stdpp's [pretty], and
    exceptions as an explicit [result] type (or an [outcome] where the state
    changed before the exception has to be kept).  The change gates, whose
    decision at a threshold depends on the rounding of the interpreter's
    arithmetic, are given a second time over binary64 floats in module
    [Binary64].  The first part of the file holds the definitions, the second
    part the lemmas and theorems. *)

From Stdlib Require Import QArith Qabs Floats.
From stdpp Require Import gmap strings list fin_maps pretty.

#[local] Set Warnings "-clear-no-such-hyp".
#[local] Set Warnings "-inexact-float".

(** * Part I: definitions *)

(** ** Exceptions *)

Inductive exn :=
  | QFull         (* queue.Full *)
  | QEmpty        (* queue.Empty *)
  | KeyError
  | DetectorError (* anything raised by the cv2 / numpy calls *)
  | SendError     (* anything raised by [client.send] *)
  | RuntimeError  (* "Set changed size during iteration" *)
  | ZeroDivisionError.

Inductive result (A : Type) :=
  | Ok (a : A)
  | Raise (e : exn).
Arguments Ok {A} a.
Arguments Raise {A} e.

(** What a statement that mutates [S] leaves behind: the state, and the
    exception that ended it, if any. *)
Definition outcome (S : Type) : Type := S * option exn.

(** ** Numbers *)

(** Python's [a > b] and [a < b] on numbers. *)
Definition Qgtb (a b : Q) : bool := negb (Qle_bool a b).
Definition Qltb (a b : Q) : bool := negb (Qle_bool b a).

(** Python's builtin [sum]: starts from [0] and adds left to right. *)
Definition py_sum (l : list Q) : Q := fold_left Qplus l 0%Q.

(** ** Poses *)

Inductive axis := X | Y | Z3.

Record vec3 := Vec3 { vx : Q; vy : Q; vz : Q }.

(** [v[k]] for [k] in ['x', 'y', 'z']. *)
Definition vget (v : vec3) (k : axis) : Q :=
  match k with X => vx v | Y => vy v | Z3 => vz v end.

(** The dict stored per marker by [detect_markers]:
    [{'id': .., 'position': {..}, 'rotation': {..}}]. *)
Record marker := Marker { id : Z; position : vec3; rotation : vec3 }.

(** [sum(abs(a[k] - b[k]) for k in ['x', 'y', 'z'])] *)
Definition abs_delta_sum (a b : vec3) : Q :=
  py_sum (List.map (fun k => Qabs (vget a k - vget b k)) [X; Y; Z3]).

(** ** [queue.Queue]

    The operations of the standard library's [queue.Queue] that the trackers
    use; every one of them runs under the queue's own mutex, so each is one
    atomic step. *)

Module Queue.

Record t (A : Type) := mk { maxsize : Z; items : list A }.
Arguments mk {A} maxsize items.
Arguments maxsize {A} _.
Arguments items {A} _.

Definition qsize {A} (q : t A) : Z := Z.of_nat (length (items q)).

Definition empty {A} (q : t A) : bool := (qsize q =? 0)%Z.

(** [0 < self.maxsize <= self._qsize()] *)
Definition full {A} (q : t A) : bool :=
  (0 <? maxsize q)%Z && (maxsize q <=? qsize q)%Z.

(** [put(item, block=False)]: raises [Full] when no slot is free. *)
Definition put_nowait {A} (q : t A) (item : A) : result (t A) :=
  if (0 <? maxsize q)%Z && (maxsize q <=? qsize q)%Z then Raise QFull
  else Ok (mk (maxsize q) (items q ++ [item])).

(** [get(block=False)]: raises [Empty] when nothing is queued. *)
Definition get_nowait {A} (q : t A) : result (A * t A) :=
  match items q with
  | [] => Raise QEmpty
  | item :: rest => Ok (item, mk (maxsize q) rest)
  end.

(** [get(timeout=..)] at the moment it returns: the oldest item, or [Empty]
    when the wait ran out with nothing queued. *)
Definition get {A} (q : t A) : result (A * t A) := get_nowait q.

(** One atomic queue operation issued by some thread; a failed operation
    leaves the queue as it was. *)
Inductive op (A : Type) := Put (item : A) | Get.
Arguments Put {A} item.
Arguments Get {A}.

Definition step {A} (q : t A) (o : op A) : t A :=
  match o with
  | Put item => match put_nowait q item with Ok q' => q' | Raise _ => q end
  | Get => match get_nowait q with Ok (_, q') => q' | Raise _ => q end
  end.

Definition run {A} (q : t A) (ops : list (op A)) : t A := foldl step q ops.

End Queue.

(** [self.frame_queue = Queue(maxsize=2)] and
    [self.result_queue = Queue(maxsize=10)] (lines 58-59). *)
Definition frame_queue_init {A} : Queue.t A := Queue.mk 2 [].
Definition result_queue_init {A} : Queue.t A := Queue.mk 10 [].

(** ** [capture_thread] (lines 86-106)

    The part of one loop iteration that follows a successful [cap.read()]:
    drop one queued item if the queue is full, then try to put the new one. *)
Definition capture_publish {A} (q : Queue.t A) (item : A) : Queue.t A :=
  let q1 :=
    if Queue.full q then
      match Queue.get_nowait q with
      | Ok (_, q') => q'
      | Raise _ => q                      (* except Empty: pass *)
      end
    else q in
  match Queue.put_nowait q1 item with
  | Ok q2 => q2
  | Raise _ => q1                         (* except: pass *)
  end.

(** One iteration: [read] is [None] when [ret] is false ([continue]). *)
Definition capture_iteration {F} (q : Queue.t (Q * F)) (now : Q) (read : option F)
  : Queue.t (Q * F) :=
  match read with
  | None => q
  | Some frame => capture_publish q (now, frame)
  end.

(** ** The detector interface

    [detect_frame] stands for the two calls made once per frame,
    [cv2.cvtColor] and [self.detector.detectMarkers]: they raise, or yield the
    ids with their corners ([None] when [ids is None]).  [solve_pose] stands
    for the body of the per-marker [try] block up to the dict literal
    ([cv2.solvePnP], [cv2.Rodrigues] and the conversions): it raises, or
    reports [success = False] ([Ok None]), or gives a position and a
    rotation. *)
Class Detector (Frame Corners : Type) := {
  detect_frame : Frame → result (option (list (Z * Corners)));
  solve_pose : Corners → result (option (vec3 * vec3))
}.

(** ** [detect_markers] (lines 131-171)

    The second component is the list of marker ids for which the handler
    printed a "processing error" line. *)
Fixpoint detect_loop `{Detector Frame Corners} (dets : list (Z * Corners))
    (markers : gmap Z marker) (log : list Z) : gmap Z marker * list Z :=
  match dets with
  | [] => (markers, log)
  | (marker_id, corners) :: rest =>
      match solve_pose corners with
      | Ok (Some (pos, rot)) =>
          detect_loop rest (<[marker_id := Marker marker_id pos rot]> markers) log
      | Ok None => detect_loop rest markers log
      | Raise _ => detect_loop rest markers (log ++ [marker_id])   (* print; continue *)
      end
  end.

Definition detect_markers `{Detector Frame Corners} (frame : Frame)
  : result (gmap Z marker * list Z) :=
  match detect_frame frame with
  | Raise e => Raise e                    (* outside the per-marker try *)
  | Ok None => Ok (∅, [])
  | Ok (Some dets) => Ok (detect_loop dets ∅ [])
  end.

(** ** [process_thread] (lines 108-129) *)

Record processing_result := ProcessingResult {
  timestamp : Q;
  markers : gmap Z marker;
  processing_time : Q
}.

(** [try: self.result_queue.put_nowait(..) / except: pass] *)
Definition publish_result {A} (rq : Queue.t A) (r : A) : result (Queue.t A) :=
  match Queue.put_nowait rq r with
  | Ok rq' => Ok rq'
  | Raise _ => Ok rq                      (* except: pass *)
  end.

(** One loop iteration; [now] is the [time.time()] read after detection. *)
Definition process_iteration `{Detector Frame Corners} (now : Q)
    (fq : Queue.t (Q * Frame)) (rq : Queue.t processing_result)
  : result (Queue.t (Q * Frame) * Queue.t processing_result) :=
  match Queue.get fq with
  | Raise _ => Ok (fq, rq)                (* except Empty: continue *)
  | Ok ((ts, frame), fq') =>
      match detect_markers frame with
      | Raise _ => Ok (fq', rq)           (* except Exception: print *)
      | Ok (found, _) =>
          match publish_result rq (ProcessingResult ts found (now - ts)%Q) with
          | Ok rq' => Ok (fq', rq')
          | Raise _ => Ok (fq', rq)       (* except Exception: print *)
          end
      end
  end.

(** ** The change gate ([should_update_history] / [should_broadcast])

    The two methods have the same body and differ in the two literals of the
    last comparison; [gate] is that body with the literals as parameters. *)

Definition pos_change (data last : marker) : Q :=
  abs_delta_sum (position data) (position last).
Definition rot_change (data last : marker) : Q :=
  abs_delta_sum (rotation data) (rotation last).

Section Gate.
Variables pos_threshold rot_threshold : Q.

(** The [for marker_id, data in markers.items()] loop with its early
    returns; the value returned does not depend on the order of the items
    (lemma [gate_correct]). *)
Fixpoint gate_loop (items : list (Z * marker)) (last_states : gmap Z marker) : bool :=
  match items with
  | [] => false
  | (marker_id, data) :: rest =>
      match last_states !! marker_id with
      | None => true
      | Some last =>
          if Qgtb (pos_change data last) pos_threshold
             || Qgtb (rot_change data last) rot_threshold
          then true
          else gate_loop rest last_states
      end
  end.

Definition gate (markers last_states : gmap Z marker) : bool :=
  if negb (size markers =? size last_states)%nat then true
  else gate_loop (map_to_list markers) last_states.

End Gate.

(** Lines 173-188: thresholds 0.015 and 2.0. *)
Definition should_update_history (markers last_states : gmap Z marker) : bool :=
  gate (15 # 1000) 2 markers last_states.

(** Lines 190-205: thresholds 0.005 and 0.5. *)
Definition should_broadcast (markers last_states : gmap Z marker) : bool :=
  gate (5 # 1000) (1 # 2) markers last_states.

(** What the specification says a gate with thresholds [pt], [rt] decides,
    with the two sums of absolute per-axis deltas written out on the fields
    of the two poses. *)
Definition gate_passes_spec (pt rt : Q) (markers last_states : gmap Z marker) : Prop :=
  size markers ≠ size last_states
  ∨ (∃ i d, markers !! i = Some d ∧ last_states !! i = None)
  ∨ (∃ i d r, markers !! i = Some d ∧ last_states !! i = Some r
       ∧ (pt < Qabs (vx (position d) - vx (position r))
               + Qabs (vy (position d) - vy (position r))
               + Qabs (vz (position d) - vz (position r))
          ∨ rt < Qabs (vx (rotation d) - vx (rotation r))
                 + Qabs (vy (rotation d) - vy (rotation r))
                 + Qabs (vz (rotation d) - vz (rotation r)))%Q).

(** ** The change gate in binary64

    The two methods once more, as the interpreter evaluates them: the
    coordinates are Python floats ([float(...)] in [detect_markers]), [-],
    [abs], [+] and [>] are the IEEE 754 binary64 operations, the literals are
    the nearest binary64 values, and [sum] starts from the int [0] and adds
    the items from left to right, each addition rounded, as CPython 3.11
    performs it. *)

Module Binary64.

Record vec3 := Vec3 { vx : float; vy : float; vz : float }.

Definition vget (v : vec3) (k : axis) : float :=
  match k with X => vx v | Y => vy v | Z3 => vz v end.

Record marker := Marker { id : Z; position : vec3; rotation : vec3 }.

Definition py_sum (l : list float) : float := fold_left PrimFloat.add l 0%float.

(** [sum(abs(a[k] - b[k]) for k in ['x', 'y', 'z'])] *)
Definition abs_delta_sum (a b : vec3) : float :=
  py_sum (List.map (fun k => PrimFloat.abs (PrimFloat.sub (vget a k) (vget b k)))
            [X; Y; Z3]).

Definition pos_change (data last : marker) : float :=
  abs_delta_sum (position data) (position last).
Definition rot_change (data last : marker) : float :=
  abs_delta_sum (rotation data) (rotation last).

Section Gate.
Variables pos_threshold rot_threshold : float.

(** [pos_change > pos_threshold or rot_change > rot_threshold]; a comparison
    with a NaN is false. *)
Fixpoint gate_loop (items : list (Z * marker)) (last_states : gmap Z marker) : bool :=
  match items with
  | [] => false
  | (marker_id, data) :: rest =>
      match last_states !! marker_id with
      | None => true
      | Some last =>
          if PrimFloat.ltb pos_threshold (pos_change data last)
             || PrimFloat.ltb rot_threshold (rot_change data last)
          then true
          else gate_loop rest last_states
      end
  end.

Definition gate (markers last_states : gmap Z marker) : bool :=
  if negb (size markers =? size last_states)%nat then true
  else gate_loop (map_to_list markers) last_states.

End Gate.

(** Lines 173-188: [0.015] and [2.0]. *)
Definition should_update_history (markers last_states : gmap Z marker) : bool :=
  gate 0.015 2 markers last_states.

(** Lines 190-205: [0.005] and [0.5]. *)
Definition should_broadcast (markers last_states : gmap Z marker) : bool :=
  gate 0.005 0.5 markers last_states.

(** What the specification says a gate with thresholds [pt], [rt] decides,
    the sums being those of binary64 in the order in which [sum] adds. *)
Definition gate_passes_spec (pt rt : float) (markers last_states : gmap Z marker)
  : Prop :=
  size markers ≠ size last_states
  ∨ (∃ i d, markers !! i = Some d ∧ last_states !! i = None)
  ∨ (∃ i d r, markers !! i = Some d ∧ last_states !! i = Some r
       ∧ ((pt <? 0 + abs (vx (position d) - vx (position r))
                  + abs (vy (position d) - vy (position r))
                  + abs (vz (position d) - vz (position r)))%float = true
          ∨ (rt <? 0 + abs (vx (rotation d) - vx (rotation r))
                     + abs (vy (rotation d) - vy (rotation r))
                     + abs (vz (rotation d) - vz (rotation r)))%float = true)).

End Binary64.

(** ** The history log ([update_history], lines 207-233) *)

(** JSON values as they occur in the configuration and in the log. *)
#[warnings="-register-all"] Inductive json :=
  | JStr (s : string)
  | JNum (q : Q)
  | JObj (fields : list (string * json)).

(** [self.config] after [load_config], which makes sure of
    [config['markers']] (it prints its keys, and falls back to the built-in
    configuration when that fails) and of nothing else: [config_default] is
    [None] for a configuration file without a ['default'] key, where
    [self.config['default']] raises [KeyError].  The payloads are JSON
    objects, as [{**config}] needs them and as the built-in configuration has
    them; a file with a payload that is not an object, on which [{**config}]
    raises [TypeError], is outside this model. *)
Record Config := MkConfig {
  config_markers : gmap string (gmap string json);
  config_default : option (gmap string json)
}.

(** The literal of the innermost [.get]: the all-zero pose. *)
Definition default_pose : vec3 * vec3 := (Vec3 0 0 0, Vec3 0 0 0).

(** The two fields of [data] that [update_history] reads. *)
Definition marker_pose (m : marker) : vec3 * vec3 := (position m, rotation m).

(** [markers.get(marker_id, self.last_states.get(marker_id, dflt))] *)
Definition lookup_data (dflt : vec3 * vec3) (found last : gmap Z marker)
    (marker_id : Z) : vec3 * vec3 :=
  match found !! marker_id with
  | Some d => marker_pose d
  | None =>
      match last !! marker_id with
      | Some d => marker_pose d
      | None => dflt
      end
  end.

(** [{**config, "pos-rot": {...}}] *)
Definition history_entry (payload : gmap string json) (data : vec3 * vec3)
  : gmap string json :=
  <["pos-rot" := JObj [("x", JNum (vx data.1)); ("y", JNum (vy data.1));
                        ("z", JNum (vz data.1));
                        ("rx", JNum (vx data.2)); ("ry", JNum (vy data.2));
                        ("rz", JNum (vz data.2));
                        ("s", JNum (1 # 10))]]> payload.

(** [if marker_id_str not in self.design_history:
       self.design_history[marker_id_str] = {}] *)
Definition ensure_marker (dh : gmap string (gmap string (gmap string json)))
    (marker_id_str : string) : gmap string (gmap string (gmap string json)) :=
  match dh !! marker_id_str with
  | None => <[marker_id_str := ∅]> dh
  | Some _ => dh
  end.

(** The body of the [for marker_id in all_ids] loop.  The default payload
    is an argument of [.get], so it is looked up for every marker. *)
Definition record_one (dflt : vec3 * vec3) (cfg : Config)
    (found last : gmap Z marker) (fc : nat)
    (dh : gmap string (gmap string (gmap string json))) (marker_id : Z)
  : outcome (gmap string (gmap string (gmap string json))) :=
  let marker_id_str := pretty marker_id in
  let dh1 := ensure_marker dh marker_id_str in
  let data := lookup_data dflt found last marker_id in
  match config_default cfg with
  | None => (dh1, Some KeyError)          (* self.config['default'] *)
  | Some fallback =>
      let payload := default fallback (config_markers cfg !! marker_id_str) in
      (alter (insert (pretty fc) (history_entry payload data)) marker_id_str dh1,
       None)
  end.

(** The loop: it ends with the first iteration that raises. *)
Fixpoint record_loop (dflt : vec3 * vec3) (cfg : Config)
    (found last : gmap Z marker) (fc : nat)
    (dh : gmap string (gmap string (gmap string json))) (ids : list Z)
  : outcome (gmap string (gmap string (gmap string json))) :=
  match ids with
  | [] => (dh, None)
  | marker_id :: rest =>
      match record_one dflt cfg found last fc dh marker_id with
      | (dh', None) => record_loop dflt cfg found last fc dh' rest
      | (dh', Some e) => (dh', Some e)
      end
  end.

(** The fields of [OptimizedTracker] that the orchestrator loop owns. *)
Record tracker := Tracker {
  clients : gset nat;
  config : Config;
  design_history : gmap string (gmap string (gmap string json));
  last_states : gmap Z marker;
  frame_count : nat
}.

(** [all_ids = set(markers.keys()) | set(self.last_states.keys())] *)
Definition all_ids (found last : gmap Z marker) : gset Z := dom found ∪ dom last.

(** [update_history] with the literal of the default pose as a parameter;
    [self.frame_count += 1] is reached when the loop did not raise. *)
Definition update_history_with (dflt : vec3 * vec3) (st : tracker)
    (found : gmap Z marker) : outcome tracker :=
  match record_loop dflt (config st) found (last_states st) (frame_count st)
          (design_history st) (elements (all_ids found (last_states st))) with
  | (dh, None) =>
      (Tracker (clients st) (config st) dh (last_states st) (S (frame_count st)),
       None)
  | (dh, Some e) =>
      (Tracker (clients st) (config st) dh (last_states st) (frame_count st),
       Some e)
  end.

Definition update_history (st : tracker) (found : gmap Z marker) : outcome tracker :=
  update_history_with default_pose st found.

(** [__init__]: empty registry, empty log, no last state, counter 0. *)
Definition tracker_init (cfg : Config) : tracker := Tracker ∅ cfg ∅ ∅ 0.

(** The entries of a log: [(marker, frame, entry)] is in the log. *)
Definition has_entry (dh : gmap string (gmap string (gmap string json)))
    (ks k : string) (e : gmap string json) : Prop :=
  ∃ h, dh !! ks = Some h ∧ h !! k = Some e.

(** ** The consumer registry and [broadcast] (lines 255-276) *)

(** The message handed to [broadcast]. *)
Record update := Update {
  u_type : string;
  u_markers : gmap Z marker;
  u_timestamp : Q;
  u_processing_time : Q
}.

(** [json.dumps] and the outcome of [await client.send(message)]. *)
Class Transport := {
  dumps : update → string;
  send : nat → string → result unit
}.

(** Python's [set.add], [set.remove] (raises [KeyError] on a missing
    element) and [set.discard]. *)
Definition set_add (s : gset nat) (x : nat) : gset nat := {[x]} ∪ s.
Definition set_remove (s : gset nat) (x : nat) : result (gset nat) :=
  if decide (x ∈ s) then Ok (s ∖ {[x]}) else Raise KeyError.
Definition set_discard (s : gset nat) (x : nat) : gset nat := s ∖ {[x]}.

(** [handle_client]: the statement before the [try] and the [finally]. *)
Definition handle_client_enter (cs : gset nat) (websocket : nat) : gset nat :=
  set_add cs websocket.
Definition handle_client_finally (cs : gset nat) (websocket : nat)
  : result (gset nat) :=
  set_remove cs websocket.

(** The state of the first loop of [broadcast]: the registry it iterates,
    the [disconnected] list, and the deliveries made so far. *)
Record send_state := SendState {
  registry : gset nat;
  disconnected : list nat;
  delivered : list (nat * string)
}.

Definition send_to `{Transport} (message : string) (s : send_state)
    (client : nat) : send_state :=
  match send client message with
  | Ok _ => SendState (registry s) (disconnected s) (delivered s ++ [(client, message)])
  | Raise _ => SendState (registry s) (disconnected s ++ [client]) (delivered s)
  end.

Definition send_loop `{Transport} (message : string) (cs : gset nat) : send_state :=
  foldl (send_to message) (SendState cs [] []) (elements cs).

(** [broadcast] in a cycle during which no other coroutine changes the
    registry: the registry afterwards and the deliveries of the cycle.  The
    cycles in which the connection handlers run are [broadcast_among]
    below. *)
Definition broadcast `{Transport} (cs : gset nat) (data : update)
  : gset nat * list (nat * string) :=
  if decide (cs = ∅) then (cs, [])
  else
    let message := dumps data in
    let s := send_loop message cs in
    (foldl set_discard (registry s) (disconnected s), delivered s).

(** *** [broadcast] among the other coroutines

    [await client.send(message)] suspends [broadcast]; until it is resumed
    the event loop runs the other coroutines, and the connection handlers
    among them change [self.clients]: [handle_client] adds its consumer when
    the connection is made, and removes it in its [finally] when the
    connection is closed. *)
Inductive registry_event :=
  | Connects (websocket : nat)
  | Closes (websocket : nat).

(** The effect of a handler on the registry; a [KeyError] of its [remove]
    ends that handler and leaves the registry as it is. *)
Definition registry_step (cs : gset nat) (ev : registry_event) : gset nat :=
  match ev with
  | Connects websocket => handle_client_enter cs websocket
  | Closes websocket =>
      match handle_client_finally cs websocket with
      | Ok cs' => cs'
      | Raise _ => cs
      end
  end.

(** The registry after the handlers that ran during one suspension, and
    whether any of them changed it. *)
Definition interfere (cs : gset nat) (events : list registry_event)
  : gset nat * bool :=
  foldl (λ acc ev,
           let cs' := registry_step acc.1 ev in
           (cs', acc.2 || negb (bool_decide (cs' = acc.1))))
        (cs, false) events.

(** How a cycle of [broadcast] ends: it returns, or the [for] statement
    raises, so that the discards after the loop are not reached; both with
    the registry left behind and the deliveries made.  [HashOrder] stands for
    the runs that this model does not follow: those in which the registry was
    changed and has its old size when the loop asks for the next consumer,
    where the consumers visited next depend on the layout of the hash
    table. *)
Inductive cycle :=
  | Returns (cs : gset nat) (sent : list (nat * string))
  | Raises (e : exn) (cs : gset nat) (sent : list (nat * string))
  | HashOrder.

(** [for client in self.clients] over the live set: [todo] holds the
    consumers that the iterator has yet to yield, in the order of the
    registry [cs] as it was when the loop started, and [failed] is the list
    [disconnected].  [during client] are the
    handlers that run while the delivery to [client] is awaited.  The
    iterator compares the size of the set with the size it started from each
    time it is asked for the next consumer, also when none is left, and
    raises [RuntimeError] when they differ. *)
Fixpoint live_loop `{Transport} (message : string)
    (during : nat → list registry_event) (cs : gset nat) (todo : list nat)
    (failed : list nat) (sent : list (nat * string)) : cycle :=
  match todo with
  | [] => Returns (foldl set_discard cs failed) sent
  | client :: rest =>
      let s := send_to message (SendState cs failed sent) client in
      let '(cs', changed) := interfere cs (during client) in
      if negb (size cs' =? size cs)%nat then Raises RuntimeError cs' (delivered s)
      else if changed then HashOrder
      else live_loop message during cs rest (disconnected s) (delivered s)
  end.

(** [broadcast] (lines 264-276) with the handlers that run during its
    suspensions.  [order] is the order in which the set yields its consumers,
    which is that of its hash table: some permutation of the registry. *)
Definition broadcast_among `{Transport} (cs : gset nat) (data : update)
    (order : list nat) (during : nat → list registry_event) : cycle :=
  if decide (cs = ∅) then Returns cs []
  else live_loop (dumps data) during cs order [] [].

(** ** The orchestrator loop ([main_loop], lines 291-311)

    One iteration that obtained [result] from the result queue; [now] is the
    [time.time()] of the message.  The second component is what the iteration
    delivered.  An exception of [update_history] is caught by neither
    [except] clause of the loop: it ends the iteration and the loop.  This is
    the iteration up to line 309, with a cycle of [broadcast] during which no
    other coroutine changes the registry; [main_loop_iteration] below adds the
    call of [calculate_fps] that ends the iteration. *)
Definition main_loop_body `{Transport} (st : tracker) (result : processing_result)
    (now : Q) : outcome tracker * list (nat * string) :=
  let found := markers result in
  let '(st1, raised) :=
    if should_update_history found (last_states st)
    then update_history st found else (st, None) in
  match raised with
  | Some e => ((st1, Some e), [])
  | None =>
      if should_broadcast found (last_states st1) then
        let '(cs, sent) :=
          broadcast (clients st1)
            (Update "tracking_update" found now (processing_time result)) in
        ((Tracker cs (config st1) (design_history st1) found (frame_count st1),
          None), sent)
      else ((st1, None), [])
  end.

(** The loop over a sequence of results, keeping the state only; it stops
    at the first iteration that raises. *)
Fixpoint main_loop_run `{Transport} (st : tracker)
    (results : list (processing_result * Q)) : tracker :=
  match results with
  | [] => st
  | (r, now) :: rest =>
      match (main_loop_body st r now).1 with
      | (st', None) => main_loop_run st' rest
      | (st', Some _) => st'
      end
  end.

(** The last element of [l] satisfying [p], or [d] when there is none. *)
Definition last_passing {A} (p : A → A → bool) (d : A) (l : list A) : A :=
  foldl (λ ref x, if p x ref then x else ref) d l.

(** ** The variant in [scrap_bin/design_history_tracker.py] *)

Module ScrapBin.

Local Open Scope Q_scope.

(** [Queue(maxsize=1)] and [Queue(maxsize=5)] (lines 63-64). *)
Definition frame_queue_init {A} : Queue.t A := Queue.mk 1 [].
Definition result_queue_init {A} : Queue.t A := Queue.mk 5 [].

(** [while not self.frame_queue.empty(): get_nowait()] (lines 134-138); the
    fuel bounds the number of iterations. *)
Fixpoint flush_loop {A} (fuel : nat) (q : Queue.t A) : Queue.t A :=
  match fuel with
  | O => q
  | S n =>
      if Queue.empty q then q
      else match Queue.get_nowait q with
           | Ok (_, q') => flush_loop n q'
           | Raise _ => q                 (* except Empty: break *)
           end
  end.

(** The [if should_process:] block (lines 132-143). *)
Definition capture_publish {A} (q : Queue.t A) (item : A) : Queue.t A :=
  let q1 := flush_loop (length (Queue.items q)) q in
  match Queue.put_nowait q1 item with
  | Ok q2 => q2
  | Raise _ => q1                         (* except: pass *)
  end.

(** [self.prediction_alpha = 0.3] and [prediction_time = 0.02]. *)
Definition prediction_alpha : Q := 3 # 10.
Definition prediction_time : Q := 2 # 100.

(** Lines 229-233: the velocity since the stored state. *)
Definition instant_velocity (data last_data : marker) (dt : Q) : vec3 :=
  Vec3 ((vx (position data) - vx (position last_data)) / dt)
       ((vy (position data) - vy (position last_data)) / dt)
       ((vz (position data) - vz (position last_data)) / dt).

(** Lines 236-242: smoothing with the stored estimate, when there is one. *)
Definition smooth (old : option vec3) (velocity : vec3) : vec3 :=
  match old with
  | Some old_vel =>
      Vec3 (vx old_vel * (1 - prediction_alpha) + vx velocity * prediction_alpha)
           (vy old_vel * (1 - prediction_alpha) + vy velocity * prediction_alpha)
           (vz old_vel * (1 - prediction_alpha) + vz velocity * prediction_alpha)
  | None => velocity
  end.

(** Lines 248-255: [{**data, 'position': {...}}]. *)
Definition extrapolate (data : marker) (velocity : vec3) : marker :=
  Marker (id data)
    (Vec3 (vx (position data) + vx velocity * prediction_time)
          (vy (position data) + vy velocity * prediction_time)
          (vz (position data) + vz velocity * prediction_time))
    (rotation data).

(** [dt = current_time - getattr(self, 'last_update_time', current_time - 0.033)] *)
Definition elapsed (current_time : Q) (last_update_time : option Q) : Q :=
  current_time - default (current_time - (33 # 1000)) last_update_time.

(** The body of the loop of [predict_marker_positions]; the accumulator is
    [predicted_markers] with [self.marker_velocities]. *)
Definition predict_one (dt : Q) (last : gmap Z marker)
    (acc : gmap Z marker * gmap Z vec3) (item : Z * marker)
  : gmap Z marker * gmap Z vec3 :=
  let '(marker_id, data) := item in
  match last !! marker_id with
  | Some last_data =>
      if Qgtb dt 0 && Qltb dt (1 # 10) then
        let velocity := smooth (acc.2 !! marker_id) (instant_velocity data last_data dt) in
        (<[marker_id := extrapolate data velocity]> acc.1,
         <[marker_id := velocity]> acc.2)
      else (<[marker_id := data]> acc.1, acc.2)
  | None => (<[marker_id := data]> acc.1, acc.2)
  end.

(** [predict_marker_positions] (lines 216-262): the predicted markers, the
    velocity table and [self.last_update_time] afterwards. *)
Definition predict_marker_positions (current_time : Q) (last : gmap Z marker)
    (marker_velocities : gmap Z vec3) (last_update_time : option Q)
    (found : gmap Z marker) : gmap Z marker * gmap Z vec3 * option Q :=
  (foldl (predict_one (elapsed current_time last_update_time) last)
         (∅, marker_velocities) (map_to_list found),
   Some current_time).

(** [should_broadcast] (lines 280-295): thresholds 0.003 and 0.3. *)
Definition should_broadcast (found last : gmap Z marker) : bool :=
  gate (3 # 1000) (3 # 10) found last.




(** *** Motion-adaptive frame skipping ([capture_thread], lines 101-145) *)

(** [cv2.cvtColor(frame, cv2.COLOR_BGR2GRAY)] and
    [np.sum(cv2.absdiff(last_gray, gray))]. *)
Class Vision (Frame Gray : Type) := {
  cvtColor : Frame → Gray;
  motion_amount : Gray → Gray → Z
}.

(** [self.motion_threshold = 2000] and [self.max_frame_skip = 2]. *)
Definition motion_threshold : Z := 2000.
Definition max_frame_skip : nat := 2.

(** The local [frame_count] of the thread with [self.last_gray] and
    [self.frame_skip_counter]. *)
Record skipper (Gray : Type) := Skipper {
  seen : nat;
  last_gray : option Gray;
  frame_skip_counter : nat
}.
Arguments Skipper {Gray} seen last_gray frame_skip_counter.
Arguments seen {Gray} _.
Arguments last_gray {Gray} _.
Arguments frame_skip_counter {Gray} _.

(** [__init__] and the start of the thread: nothing seen, no gray image,
    counter 0. *)
Definition skipper_init {Gray} : skipper Gray := Skipper 0 None 0.

(** Lines 110-130: the state after the frame, and [should_process]. *)
Definition skip_decision `{Vision Frame Gray} (s : skipper Gray) (frame : Frame)
  : skipper Gray * bool :=
  let n := S (seen s) in
  if (1 <? n)%nat then
    let gray := cvtColor frame in
    match last_gray s with
    | Some previous =>
        if (motion_threshold <? motion_amount previous gray)%Z then
          let c := S (frame_skip_counter s) in
          (Skipper n (Some gray) c, negb (c <=? max_frame_skip)%nat)
        else (Skipper n (Some gray) 0, true)
    | None => (Skipper n (Some gray) (frame_skip_counter s), true)
    end
  else (Skipper n (last_gray s) (frame_skip_counter s), true).

(** One iteration of the loop: [read] is [None] when [ret] is false. *)
Definition capture_iteration `{Vision Frame Gray} (s : skipper Gray)
    (q : Queue.t (Q * Frame)) (now : Q) (read : option Frame)
  : skipper Gray * Queue.t (Q * Frame) :=
  match read with
  | None => (s, q)
  | Some frame =>
      let '(s', should_process) := skip_decision s frame in
      (s', if should_process then capture_publish q (now, frame) else q)
  end.

(** The decisions taken for a sequence of frames, oldest first. *)
Definition skip_run `{Vision Frame Gray} (s : skipper Gray) (frames : list Frame)
  : skipper Gray * list bool :=
  foldl (λ acc frame,
           let '(s', d) := skip_decision acc.1 frame in (s', acc.2 ++ [d]))
        (s, []) frames.

End ScrapBin.

(** ** The variant in [src/design_history_tracker.py] *)

Module Simplified.

(** [detect_markers] (lines 49-72): no handler around the per-marker calls,
    so whatever they raise leaves the function. *)
Fixpoint detect_loop `{Detector Frame Corners} (dets : list (Z * Corners))
    (found : gmap Z marker) : result (gmap Z marker) :=
  match dets with
  | [] => Ok found
  | (marker_id, corners) :: rest =>
      match solve_pose corners with
      | Ok (Some (pos, rot)) =>
          detect_loop rest (<[marker_id := Marker marker_id pos rot]> found)
      | Ok None => detect_loop rest found
      | Raise e => Raise e
      end
  end.

Definition detect_markers `{Detector Frame Corners} (frame : Frame)
  : result (gmap Z marker) :=
  match detect_frame frame with
  | Raise e => Raise e
  | Ok None => Ok ∅
  | Ok (Some dets) => detect_loop dets ∅
  end.

(** [should_update_history] (lines 89-103): thresholds 0.01 and 1.0. *)
Definition should_update_history (found last : gmap Z marker) : bool :=
  gate (1 # 100) 1 found last.

(** [update_history] (lines 105-135): the loop of [collage_tracker.py],
    followed by [self.last_states = markers.copy()] and the increment. *)
Definition update_history (st : tracker) (found : gmap Z marker) : outcome tracker :=
  match record_loop default_pose (config st) found (last_states st) (frame_count st)
          (design_history st) (elements (all_ids found (last_states st))) with
  | (dh, None) =>
      (Tracker (clients st) (config st) dh found (S (frame_count st)), None)
  | (dh, Some e) =>
      (Tracker (clients st) (config st) dh (last_states st) (frame_count st),
       Some e)
  end.

(** Lines 177-178 of [run]: record when the gate passes. *)
Definition record_if_changed (st : tracker) (found : gmap Z marker)
  : outcome tracker :=
  if should_update_history found (last_states st) then update_history st found
  else (st, None).

(** The gated recording of a sequence of snapshots; it stops at the first
    one that raises. *)
Fixpoint record_run (st : tracker) (snapshots : list (gmap Z marker)) : tracker :=
  match snapshots with
  | [] => st
  | found :: rest =>
      match record_if_changed st found with
      | (st', None) => record_run st' rest
      | (st', Some _) => st'
      end
  end.

(** [broadcast] (lines 155-162, and [scrap_bin/aruco_tracker.py], lines
    90-97) with the handlers that run during its suspensions: the loop visits
    the consumers of [list(self.clients)], the copy made when it starts,
    which holds them in the order [order] in which the set yielded them; the
    handlers change the registry while a delivery is awaited, and the
    [except] clause discards the consumer from the registry as it then is.
    The state of the loop is the registry with the deliveries made so far. *)
Definition send_among `{Transport} (message : string)
    (during : nat → list registry_event)
    (s : gset nat * list (nat * string)) (client : nat)
  : gset nat * list (nat * string) :=
  let cs := (interfere s.1 (during client)).1 in
  match send client message with
  | Ok _ => (cs, s.2 ++ [(client, message)])
  | Raise _ => (set_discard cs client, s.2)
  end.

Definition broadcast_among `{Transport} (cs : gset nat) (data : update)
    (order : list nat) (during : nat → list registry_event)
  : gset nat * list (nat * string) :=
  if decide (cs = ∅) then (cs, [])
  else foldl (send_among (dumps data) during) (cs, []) order.

End Simplified.

(** ** Auxiliary definitions for the statements and the examples *)

(** A queue built with a positive [maxsize] that holds no more than that. *)
Definition bounded {A} (q : Queue.t A) : Prop :=
  (0 < Queue.maxsize q)%Z ∧ (Queue.qsize q ≤ Queue.maxsize q)%Z.

(** A capture queue of [collage_tracker.py]: [maxsize] 2, at most two items. *)
Definition capture_inv {A} (q : Queue.t A) : Prop :=
  Queue.maxsize q = 2%Z ∧ (length (Queue.items q) ≤ 2)%nat.

(** Whether the per-marker processing of a detection raises. *)
Definition raises `{Detector Frame Corners} (det : Z * Corners) : bool :=
  match solve_pose det.2 with Raise _ => true | Ok _ => false end.

(** Whether the delivery of [message] to [client] completes. *)
Definition delivers `{Transport} (message : string) (client : nat) : bool :=
  match send client message with Ok _ => true | Raise _ => false end.

(** A transport whose deliveries all succeed. *)
Definition quiet_transport : Transport :=
  {| dumps := λ _, "m"; send := λ _ _, Ok () |}.

(** A transport on which every delivery to consumer 2 fails. *)
Definition lossy_transport : Transport :=
  {| dumps := λ _, "m";
     send := λ client _, if (client =? 2)%nat then Raise SendError else Ok () |}.

(** No handler runs during the cycle; the handler of consumer 2 reaches its
    [finally] while the delivery to consumer 2 is awaited; consumer 4 connects
    while the delivery to consumer 1 is awaited. *)
Definition no_events : nat → list registry_event := λ _, [].
Definition consumer2_closes : nat → list registry_event :=
  λ client, if (client =? 2)%nat then [Closes 2] else [].
Definition consumer4_connects : nat → list registry_event :=
  λ client, if (client =? 1)%nat then [Connects 4] else [].

(** Marker 7 at depth 1, and the same marker 6 mm further away. *)
Definition marker7_near : marker := Marker 7 (Vec3 0 0 1) (Vec3 0 0 0).
Definition marker7_far : marker := Marker 7 (Vec3 0 0 (1006 # 1000)) (Vec3 0 0 0).

(** Marker 7 at x = 0.002 and at x = 0.017, in binary64. *)
Definition binary64_marker7_at_002 : Binary64.marker :=
  Binary64.Marker 7 (Binary64.Vec3 0.002 0 1) (Binary64.Vec3 0 0 0).
Definition binary64_marker7_at_017 : Binary64.marker :=
  Binary64.Marker 7 (Binary64.Vec3 0.017 0 1) (Binary64.Vec3 0 0 0).

(** A frame with the markers 1 and 2, where pose estimation raises for
    marker 1 and succeeds for marker 2. *)
Definition flaky_detector : Detector unit nat :=
  {| detect_frame := λ _, Ok (Some [(1%Z, 0%nat); (2%Z, 1%nat)]);
     solve_pose := λ corners,
       match corners with
       | O => Raise DetectorError
       | S _ => Ok (Some (Vec3 0 0 1, Vec3 0 0 0))
       end |}.

(** Some message. *)
Definition sample_update : update := Update "tracking_update" ∅ 0 0.

(** The loop body and the entry it writes when the configuration has the
    default payload [fallback]. *)
Definition entry_for (dflt : vec3 * vec3) (cfg : Config)
    (fallback : gmap string json) (found last : gmap Z marker) (marker_id : Z)
  : gmap string json :=
  history_entry (default fallback (config_markers cfg !! pretty marker_id))
                (lookup_data dflt found last marker_id).

Definition record_ok (dflt : vec3 * vec3) (cfg : Config)
    (fallback : gmap string json) (found last : gmap Z marker) (fc : nat)
    (dh : gmap string (gmap string (gmap string json))) (marker_id : Z)
  : gmap string (gmap string (gmap string json)) :=
  alter (insert (pretty fc) (entry_for dflt cfg fallback found last marker_id))
        (pretty marker_id) (ensure_marker dh (pretty marker_id)).

(** One recorder invocation as the orchestrator makes it: [call.1] is the
    candidate snapshot handed to [update_history], [call.2] is what
    [self.last_states] holds at that moment. *)
Definition recorder_call (st : tracker) (call : gmap Z marker * gmap Z marker)
  : outcome tracker :=
  update_history
    (Tracker (clients st) (config st) (design_history st) call.2 (frame_count st))
    call.1.

(** A sequence of invocations, whatever their outcomes. *)
Definition recorder_run (st : tracker)
    (calls : list (gmap Z marker * gmap Z marker)) : tracker :=
  foldl (λ s call, (recorder_call s call).1) st calls.

(** The recording step of an iteration of [main_loop] (lines 298-299). *)
Definition recording_step (st : tracker) (r : processing_result) : outcome tracker :=
  if should_update_history (markers r) (last_states st)
  then update_history st (markers r) else (st, None).

(** Every frame key of the log is [str] of a counter value already used. *)
Definition history_wf (dh : gmap string (gmap string (gmap string json)))
    (fc : nat) : Prop :=
  ∀ ks k e, has_entry dh ks k e → ∃ n : nat, k = pretty n ∧ (n < fc)%nat.

(** The snapshot an id's recorded pose is read from: the candidate, or the
    last state when the candidate lacks the id. *)
Definition pose_source (found last : gmap Z marker) (i : Z) (d : marker) : Prop :=
  found !! i = Some d ∨ (found !! i = None ∧ last !! i = Some d).

(** What the loop of [predict_marker_positions] stores for a marker, given
    the velocity estimate [old] held for it when its iteration starts. *)
Definition predicted_for (dt : Q) (last : gmap Z marker) (old : option vec3)
    (i : Z) (data : marker) : marker :=
  match last !! i with
  | Some last_data =>
      if Qgtb dt 0 && Qltb dt (1 # 10)
      then ScrapBin.extrapolate data
             (ScrapBin.smooth old (ScrapBin.instant_velocity data last_data dt))
      else data
  | None => data
  end.



(** Marker 7 two centimetres further away than [marker7_near]. *)
Definition marker7_jump : marker := Marker 7 (Vec3 0 0 (102 # 100)) (Vec3 0 0 0).

(** A tracker that last broadcast marker 7 at depth 1, after one recording. *)
Definition plain_config : Config := MkConfig ∅ (Some ∅).
Definition tracker_seen7 : tracker :=
  Tracker ∅ plain_config ∅ {[ 7%Z := marker7_near ]} 1.

(** A configuration file with ['markers'] and without ['default']. *)
Definition config_without_default : Config := MkConfig ∅ None.

(** A result with no marker, and a full result queue holding it ten times. *)
Definition empty_result : processing_result := ProcessingResult 0 ∅ 0.
Definition full_result_queue : Queue.t processing_result :=
  Queue.mk 10 (replicate 10 empty_result).

(** ** [load_config] (lines 69-84) *)

(** What [open] and [json.load] yield when they return: [file_markers] is
    the value under ['markers'] when there is one with [.keys()] (an object,
    of one payload object per marker id), and [file_default] the value under
    ['default'] when there is one. *)
Record config_file := ConfigFile {
  file_markers : option (gmap string (gmap string json));
  file_default : option (gmap string json)
}.

(** The configuration of the [except] branch. *)
Definition builtin_default : gmap string json :=
  {[ "width" := JStr "256px";
     "height" := JStr "144px";
     "src" := JStr "https://www.youtube.com/embed/dQw4w9WgXcQ";
     "clip_path" := JStr "circle(50% at 50% 50%)" ]}.
Definition fallback_config : Config := MkConfig ∅ (Some builtin_default).

(** [read] raises when the file cannot be opened or parsed; the printing of
    [self.config['markers'].keys()] raises, inside the same [try], when the
    parsed value has no such key. *)
Definition load_config (read : result config_file) : Config :=
  match read with
  | Raise _ => fallback_config
  | Ok file =>
      match file_markers file with
      | None => fallback_config
      | Some per_marker => MkConfig per_marker (file_default file)
      end
  end.

(** ** [calculate_fps] (lines 235-242) *)

Record fps_state := FpsState { fps_counter : nat; fps_start_time : Q }.

(** What a call does besides counting: nothing, print the rate, or raise
    [ZeroDivisionError] in [30 / elapsed]. *)
Inductive fps_report :=
  | NoReport
  | Report (fps : Q)
  | ZeroDivision.

Definition calculate_fps (s : fps_state) (current_time : Q) : fps_state * fps_report :=
  let c := S (fps_counter s) in
  if (c mod 30 =? 0)%nat then
    let elapsed := (current_time - fps_start_time s)%Q in
    if Qeq_bool elapsed 0 then (FpsState c (fps_start_time s), ZeroDivision)
    else (FpsState c current_time, Report (30 / elapsed)%Q)
  else (FpsState c (fps_start_time s), NoReport).

(** The reports of a sequence of calls, given the clock reading of each. *)
Definition fps_run (s : fps_state) (times : list Q) : fps_state * list fps_report :=
  foldl (λ acc t, let '(s', r) := calculate_fps acc.1 t in (s', acc.2 ++ [r]))
        (s, []) times.

(** ** The whole iteration of [main_loop] (lines 294-311)

    [main_loop_body], and then [self.calculate_fps()], whose [time.time()] is
    [now_fps].  The [ZeroDivisionError] of [calculate_fps] is caught by
    neither [except] clause of the loop, and ends it like an exception of
    [update_history]. *)
Definition main_loop_iteration `{Transport} (st : tracker) (fps : fps_state)
    (result : processing_result) (now now_fps : Q)
  : outcome (tracker * fps_state) * list (nat * string) :=
  match main_loop_body st result now with
  | ((st1, Some e), sent) => (((st1, fps), Some e), sent)
  | ((st1, None), sent) =>
      match calculate_fps fps now_fps with
      | (fps1, ZeroDivision) => (((st1, fps1), Some ZeroDivisionError), sent)
      | (fps1, _) => (((st1, fps1), None), sent)
      end
  end.

(** ** [list_available_cameras] ([src/camera_check.py], lines 3-18)

    [isOpened i] is whether [cv2.VideoCapture(i)] opens; the fuel bounds the
    number of iterations of the [while True] loop, and [None] is a run that
    used it up. *)
Fixpoint scan_cameras (isOpened : nat → bool) (fuel i : nat)
    (available_cameras : list nat) : option (list nat) :=
  match fuel with
  | O => None
  | S fuel' =>
      if isOpened i
      then scan_cameras isOpened fuel' (S i) (available_cameras ++ [i])
      else Some available_cameras
  end.

Definition list_available_cameras (isOpened : nat → bool) (fuel : nat)
  : option (list nat) :=
  scan_cameras isOpened fuel 0 [].

(** ** Auxiliary definitions for the further properties *)

(** The items that the [Put] operations of a trace offer. *)
Definition offered {A} (ops : list (Queue.op A)) : list A :=
  omap (λ o, match o with Queue.Put x => Some x | Queue.Get => None end) ops.

(** The number of frames skipped at the end of a list of decisions. *)
Fixpoint leading_skips (ds : list bool) : nat :=
  match ds with
  | false :: rest => S (leading_skips rest)
  | _ => 0
  end.
Definition trailing_skips (ds : list bool) : nat := leading_skips (reverse ds).

(** Motion above the threshold from each frame to the next. *)
Fixpoint sustained_motion `{ScrapBin.Vision Frame Gray} (previous : Gray)
    (frames : list Frame) : Prop :=
  match frames with
  | [] => True
  | frame :: rest =>
      (ScrapBin.motion_threshold
       < ScrapBin.motion_amount previous (ScrapBin.cvtColor frame))%Z
      ∧ sustained_motion (ScrapBin.cvtColor frame) rest
  end.

(** A measure of motion between integers, for the examples. *)
Definition distance_vision : ScrapBin.Vision Z Z :=
  {| ScrapBin.cvtColor := λ frame, frame;
     ScrapBin.motion_amount := λ a b, Z.abs (a - b) |}.

(** What the loop of [predict_marker_positions] stores in the velocity table
    for a marker of the snapshot, given the estimate [old] held for it. *)
Definition velocity_for (dt : Q) (last : gmap Z marker) (old : option vec3)
    (i : Z) (data : marker) : option vec3 :=
  match last !! i with
  | Some last_data =>
      if Qgtb dt 0 && Qltb dt (1 # 10)
      then Some (ScrapBin.smooth old (ScrapBin.instant_velocity data last_data dt))
      else old
  | None => old
  end.

(** Marker 7 moving away at 0.2 per second, and that velocity. *)
Definition marker7_step : marker := Marker 7 (Vec3 0 0 (10066 # 10000)) (Vec3 0 0 0).
Definition velocity_away : vec3 := Vec3 0 0 (2 # 10).

(** ** The capture queue between its two threads

    [capture_thread] (lines 89-106) touches the frame queue in three calls,
    [full()], [get_nowait()] and [put_nowait()], each of them atomic under the
    mutex of the queue; the [get] of [process_thread] can run between any two
    of them.  The items are the frames, each with the [time.time()] of its
    [put_nowait]. *)

(** Where the capture thread is in its iteration: before [cap.read()];
    before [get_nowait()], [full()] having returned [True]; or before
    [put_nowait()]; the last two with the frame read. *)
Inductive capture_pc (A : Type) :=
  | AtRead
  | AtDrop (item : A)
  | AtPut (item : A).
Arguments AtRead {A}.
Arguments AtDrop {A} item.
Arguments AtPut {A} item.

(** The frames that [cap.read()] has yet to return, the capture thread, the
    queue, and the frames handed to the processor so far. *)
Record pipeline (A : Type) := Pipeline {
  camera : list A;
  capture_at : capture_pc A;
  frame_queue : Queue.t A;
  handed_over : list A
}.
Arguments Pipeline {A} camera capture_at frame_queue handed_over.
Arguments camera {A} _.
Arguments capture_at {A} _.
Arguments frame_queue {A} _.
Arguments handed_over {A} _.

(** The next step of the capture thread: [cap.read()] with the call of
    [full()] (nothing to read is [ret] false, and the loop continues), or
    [get_nowait()], or [put_nowait()], with their handlers. *)
Definition capture_step {A} (p : pipeline A) : pipeline A :=
  match capture_at p with
  | AtRead =>
      match camera p with
      | [] => p
      | item :: rest =>
          Pipeline rest
            (if Queue.full (frame_queue p) then AtDrop item else AtPut item)
            (frame_queue p) (handed_over p)
      end
  | AtDrop item =>
      Pipeline (camera p) (AtPut item)
        (match Queue.get_nowait (frame_queue p) with
         | Ok (_, q') => q'
         | Raise _ => frame_queue p          (* except Empty: pass *)
         end)
        (handed_over p)
  | AtPut item =>
      Pipeline (camera p) AtRead
        (match Queue.put_nowait (frame_queue p) item with
         | Ok q' => q'
         | Raise _ => frame_queue p          (* except: pass *)
         end)
        (handed_over p)
  end.

(** The [get] of [process_thread] (line 113) returning, or timing out. *)
Definition process_step {A} (p : pipeline A) : pipeline A :=
  match Queue.get (frame_queue p) with
  | Ok (item, q') => Pipeline (camera p) (capture_at p) q' (handed_over p ++ [item])
  | Raise _ => p                              (* except Empty: continue *)
  end.

(** A schedule names the thread that takes each step. *)
Inductive thread := CaptureThread | ProcessThread.

Definition thread_step {A} (p : pipeline A) (t : thread) : pipeline A :=
  match t with
  | CaptureThread => capture_step p
  | ProcessThread => process_step p
  end.

Definition schedule_run {A} (p : pipeline A) (schedule : list thread) : pipeline A :=
  foldl thread_step p schedule.

(** The start of the two threads: an empty queue of [maxsize] 2. *)
Definition pipeline_init {A} (frames : list A) : pipeline A :=
  Pipeline frames AtRead frame_queue_init [].

(** The frame that the capture thread has read and not yet put. *)
Definition in_hand {A} (pc : capture_pc A) : list A :=
  match pc with
  | AtRead => []
  | AtDrop item | AtPut item => [item]
  end.

(** * Part II: lemmas and theorems *)

(** ** The numeric helpers *)

Lemma Qgtb_true a b : Qgtb a b = true ↔ (b < a)%Q.
Proof.
  unfold Qgtb. rewrite negb_true_iff. split.
  - intros H. apply Qnot_le_lt. intros Hle.
    apply Qle_bool_iff in Hle. congruence.
  - intros H. destruct (Qle_bool a b) eqn:E; [|done].
    apply Qle_bool_iff in E. exfalso. exact (Qlt_not_le _ _ H E).
Qed.

Lemma Qltb_true a b : Qltb a b = true ↔ (a < b)%Q.
Proof. apply (Qgtb_true b a). Qed.

Lemma abs_delta_sum_self v : (abs_delta_sum v v == 0)%Q.
Proof.
  unfold abs_delta_sum, py_sum. cbn [List.map fold_left].
  assert (Hz : ∀ x, (Qabs (x - x) == 0)%Q).
  { intros x. unfold Qminus. rewrite Qplus_opp_r. reflexivity. }
  rewrite !Hz. ring.
Qed.

(** ** The queues *)

Lemma put_nowait_full {A} (q : Queue.t A) x :
  Queue.full q = true → Queue.put_nowait q x = Raise QFull.
Proof. unfold Queue.full, Queue.put_nowait. intros H. rewrite H. reflexivity. Qed.

Lemma put_nowait_free {A} (q : Queue.t A) x :
  Queue.full q = false →
  Queue.put_nowait q x = Ok (Queue.mk (Queue.maxsize q) (Queue.items q ++ [x])).
Proof. unfold Queue.full, Queue.put_nowait. intros H. rewrite H. reflexivity. Qed.

Lemma step_maxsize {A} (q : Queue.t A) o :
  Queue.maxsize (Queue.step q o) = Queue.maxsize q.
Proof.
  destruct o as [x|]; unfold Queue.step.
  - unfold Queue.put_nowait.
    destruct ((0 <? Queue.maxsize q)%Z && (Queue.maxsize q <=? Queue.qsize q)%Z);
      reflexivity.
  - unfold Queue.get_nowait. destruct (Queue.items q); reflexivity.
Qed.

Lemma step_bounded {A} (q : Queue.t A) o : bounded q → bounded (Queue.step q o).
Proof.
  intros [Hpos Hle]. split; [by rewrite step_maxsize|].
  rewrite step_maxsize. destruct o as [x|]; unfold Queue.step.
  - unfold Queue.put_nowait.
    destruct ((0 <? Queue.maxsize q)%Z && (Queue.maxsize q <=? Queue.qsize q)%Z) eqn:E;
      [done|].
    apply andb_false_iff in E as [E|E]; [apply Z.ltb_ge in E; lia|].
    apply Z.leb_gt in E. unfold Queue.qsize in *. simpl.
    rewrite length_app. simpl. lia.
  - unfold Queue.get_nowait, Queue.qsize in *.
    destruct (Queue.items q) as [|y l] eqn:E; simpl; [rewrite E|];
      cbn [length] in Hle |- *; lia.
Qed.

Lemma run_bounded {A} (ops : list (Queue.op A)) (q : Queue.t A) :
  bounded q → bounded (Queue.run q ops).
Proof.
  revert q. induction ops as [|o ops IH]; intros q Hq; [done|].
  unfold Queue.run in *. cbn [foldl]. apply IH. by apply step_bounded.
Qed.

Lemma run_maxsize {A} (ops : list (Queue.op A)) (q : Queue.t A) :
  Queue.maxsize (Queue.run q ops) = Queue.maxsize q.
Proof.
  revert q. induction ops as [|o ops IH]; intros q; [done|].
  unfold Queue.run in *. cbn [foldl]. by rewrite IH, step_maxsize.
Qed.

Lemma run_length_le {A} (ops : list (Queue.op A)) (q : Queue.t A) :
  bounded q →
  (length (Queue.items (Queue.run q ops)) ≤ Z.to_nat (Queue.maxsize q))%nat.
Proof.
  intros Hq. destruct (run_bounded ops q Hq) as [_ Hle].
  rewrite run_maxsize in Hle. unfold Queue.qsize in Hle. lia.
Qed.

(** *** The capture queue of [collage_tracker.py] *)

Lemma capture_publish_shape {A} (q : Queue.t A) (x : A) :
  capture_inv q →
  capture_publish q x =
    Queue.mk 2 (match Queue.items q with
                | [a; b] => [b; x]
                | l => l ++ [x]
                end).
Proof.
  intros [Hm Hl]. destruct q as [m l]. simpl in *. subst m.
  destruct l as [|a [|b [|c l]]]; simpl in *; try lia; reflexivity.
Qed.

Lemma capture_publish_inv {A} (q : Queue.t A) (x : A) :
  capture_inv q → capture_inv (capture_publish q x).
Proof.
  intros Hq. rewrite (capture_publish_shape q x Hq).
  destruct Hq as [_ Hl]. split; [done|]. simpl.
  destruct (Queue.items q) as [|a [|b [|c l]]]; simpl in *; lia.
Qed.

Lemma capture_run_inv {A} (frames : list A) (q : Queue.t A) :
  capture_inv q → capture_inv (foldl capture_publish q frames).
Proof.
  revert q. induction frames as [|x frames IH]; intros q Hq; [done|].
  simpl. apply IH. by apply capture_publish_inv.
Qed.

Lemma capture_publish_twice {A} (q : Queue.t A) (a b : A) :
  capture_inv q →
  Queue.items (capture_publish (capture_publish q a) b) = [a; b].
Proof.
  intros Hq.
  rewrite (capture_publish_shape _ b (capture_publish_inv q a Hq)).
  rewrite (capture_publish_shape q a Hq). destruct Hq as [_ Hl]. simpl.
  destruct (Queue.items q) as [|x [|y [|z l]]]; simpl in *; try lia; reflexivity.
Qed.

(** *** The capture queue of the [scrap_bin] variant *)

Lemma flush_loop_empties {A} (q : Queue.t A) :
  ScrapBin.flush_loop (length (Queue.items q)) q = Queue.mk (Queue.maxsize q) [].
Proof.
  destruct q as [m l]. simpl. revert m.
  induction l as [|x l IH]; intros m; [done|]. simpl. apply IH.
Qed.

Lemma scrap_capture_publish_items {A} (q : Queue.t A) (x : A) :
  Queue.maxsize q = 1%Z → ScrapBin.capture_publish q x = Queue.mk 1 [x].
Proof.
  intros Hm. unfold ScrapBin.capture_publish. rewrite flush_loop_empties, Hm.
  reflexivity.
Qed.

(** C3 (as stated, refuted). Three consecutive pushes of the frames 1, 2, 3
    into the capture queue of [collage_tracker.py] leave two unconsumed
    frames in it, the older of which (frame 2, not the most recent one) is
    what the processor receives next. *)
Lemma capture_queue_holds_two_frames :
  let q := foldl capture_publish (@frame_queue_init nat) [1; 2; 3]%nat in
  Queue.items q = [2; 3]%nat
  ∧ ¬ (length (Queue.items q) ≤ 1)%nat
  ∧ Queue.get q = Ok (2%nat, Queue.mk 2 [3%nat]).
Proof. simpl. split; [reflexivity|]. split; [simpl; lia|reflexivity]. Qed.

(** C3 (amended). The capture queue of [collage_tracker.py] ([maxsize] 2)
    holds at most two unconsumed frames under every interleaving of queue
    operations; after one push it holds that frame, and after N >= 2
    consecutive pushes with no pops it holds exactly the (N-1)-th and the N-th
    pushed frame, in that order, every older frame being gone.  The capture
    queue of the [scrap_bin] variant ([maxsize] 1, flushed before each put)
    holds at most one frame, and after any push exactly the pushed frame. *)
Theorem capture_queue_keeps_latest (A : Type) :
  (∀ ops : list (Queue.op A),
      (length (Queue.items (Queue.run frame_queue_init ops)) ≤ 2)%nat)
  ∧ (∀ a : A, Queue.items (foldl capture_publish frame_queue_init [a]) = [a])
  ∧ (∀ (frames : list A) (a b : A),
      Queue.items (foldl capture_publish frame_queue_init (frames ++ [a; b]))
      = [a; b])
  ∧ (∀ ops : list (Queue.op A),
      (length (Queue.items (Queue.run ScrapBin.frame_queue_init ops)) ≤ 1)%nat)
  ∧ (∀ (frames : list A) (a : A),
      Queue.items (foldl ScrapBin.capture_publish ScrapBin.frame_queue_init
                         (frames ++ [a])) = [a]).
Proof.
  split; [|split; [|split; [|split]]].
  - intros ops. apply (run_length_le ops (@frame_queue_init A)).
    split; simpl; unfold Queue.qsize; simpl; lia.
  - reflexivity.
  - intros frames a b. rewrite foldl_app. simpl.
    apply capture_publish_twice, capture_run_inv. split; simpl; [done|lia].
  - intros ops. apply (run_length_le ops (@ScrapBin.frame_queue_init A)).
    split; simpl; unfold Queue.qsize; simpl; lia.
  - intros frames a. rewrite foldl_app. simpl.
    rewrite scrap_capture_publish_items; [done|].
    generalize (@ScrapBin.frame_queue_init A) (eq_refl : Queue.maxsize (@ScrapBin.frame_queue_init A) = 1%Z).
    induction frames as [|x frames IH]; intros q Hq; [done|].
    simpl. apply IH. by rewrite scrap_capture_publish_items.
Qed.

(** *** The result queue *)

Lemma publish_result_spec {A} (rq : Queue.t A) (r : A) :
  ∃ rq', publish_result rq r = Ok rq'
    ∧ Queue.maxsize rq' = Queue.maxsize rq
    ∧ (Queue.full rq = true → rq' = rq)
    ∧ (Queue.full rq = false → Queue.items rq' = Queue.items rq ++ [r]).
Proof.
  unfold publish_result. destruct (Queue.full rq) eqn:E.
  - rewrite (put_nowait_full _ _ E). exists rq. done.
  - rewrite (put_nowait_free _ _ E). eexists. split; [done|]. done.
Qed.

(** C4. The result queue ([maxsize] 10) never holds more than ten results,
    whatever operations the processor and the orchestrator interleave on it;
    the processor's guarded [put_nowait] always completes without an
    exception, leaves a full queue exactly as it was (the new result is
    dropped) and appends the result otherwise; and a whole iteration of the
    processing loop completes without an exception, whatever the detector
    does. *)
Theorem result_queue_drops_newest `{Detector Frame Corners} :
  (∀ ops : list (Queue.op processing_result),
      (length (Queue.items (Queue.run result_queue_init ops)) ≤ 10)%nat)
  ∧ (∀ (rq : Queue.t processing_result) (r : processing_result),
      ∃ rq', publish_result rq r = Ok rq'
        ∧ Queue.maxsize rq' = Queue.maxsize rq
        ∧ (Queue.full rq = true → rq' = rq)
        ∧ (Queue.full rq = false → Queue.items rq' = Queue.items rq ++ [r]))
  ∧ (∀ now (fq : Queue.t (Q * Frame)) (rq : Queue.t processing_result),
      ∃ fq' rq', process_iteration now fq rq = Ok (fq', rq')
        ∧ (Queue.full rq = true → rq' = rq)).
Proof.
  split; [|split].
  - intros ops. apply (run_length_le ops (@result_queue_init processing_result)).
    split; simpl; unfold Queue.qsize; simpl; lia.
  - intros rq r. apply publish_result_spec.
  - intros now fq rq. unfold process_iteration.
    destruct (Queue.get fq) as [[[ts frame] fq']|e]; [|by exists fq, rq].
    destruct (detect_markers frame) as [[found log]|e]; [|by exists fq', rq].
    destruct (publish_result_spec rq (ProcessingResult ts found (now - ts)%Q))
      as (rq' & -> & _ & Hfull & _).
    by exists fq', rq'.
Qed.

(** A full result queue is left as it is by the guarded put. *)
Lemma result_queue_drops_newest_witness :
  Queue.full full_result_queue = true
  ∧ publish_result full_result_queue empty_result = Ok full_result_queue.
Proof.
  split; [reflexivity|].
  destruct (proj1 (proj2 (@result_queue_drops_newest _ _ flaky_detector))
              full_result_queue empty_result) as (rq' & Heq & _ & Hfull & _).
  rewrite Heq. f_equal. apply Hfull. reflexivity.
Defined.
(** ** The change gate *)

Lemma gate_loop_true pt rt items ref :
  gate_loop pt rt items ref = true ↔
  ∃ i d, (i, d) ∈ items ∧
    match ref !! i with
    | None => True
    | Some r => (pt < pos_change d r ∨ rt < rot_change d r)%Q
    end.
Proof.
  induction items as [|[i d] rest IH]; simpl.
  - split; [done|]. intros (i & d & Hin & _). by apply elem_of_nil in Hin.
  - destruct (ref !! i) as [r|] eqn:Hl.
    + destruct (Qgtb (pos_change d r) pt || Qgtb (rot_change d r) rt) eqn:Hc.
      * split; [|done]. intros _. exists i, d. split; [left|].
        rewrite Hl. apply orb_true_iff in Hc.
        rewrite !Qgtb_true in Hc. exact Hc.
      * rewrite IH. split.
        -- intros (j & e & Hin & Hj). exists j, e. split; [by right|done].
        -- intros (j & e & Hin & Hj). apply elem_of_cons in Hin as [Heq|Hin].
           ++ inversion Heq; subst j e. rewrite Hl in Hj.
              apply orb_false_iff in Hc as [Hp Hr].
              destruct Hj as [Hj|Hj]; apply Qgtb_true in Hj; congruence.
           ++ exists j, e. done.
    + split; [|done]. intros _. exists i, d. split; [left|]. by rewrite Hl.
Qed.

(** The decision of [gate] in terms of the two sums that its loop computes. *)
Lemma gate_true pt rt found ref :
  gate pt rt found ref = true ↔
  size found ≠ size ref
  ∨ (∃ i d, found !! i = Some d ∧ ref !! i = None)
  ∨ (∃ i d r, found !! i = Some d ∧ ref !! i = Some r
              ∧ (pt < pos_change d r ∨ rt < rot_change d r)%Q).
Proof.
  unfold gate.
  destruct (size found =? size ref)%nat eqn:Hs; simpl.
  - apply Nat.eqb_eq in Hs. rewrite gate_loop_true. split.
    + intros (i & d & Hin & Hm). apply elem_of_map_to_list in Hin.
      destruct (ref !! i) as [r|] eqn:Hl.
      * right; right. exists i, d, r. done.
      * right; left. exists i, d. done.
    + intros [Hne|[(i & d & Hm & Hl)|(i & d & r & Hm & Hl & Hc)]].
      * done.
      * exists i, d. rewrite elem_of_map_to_list, Hl. done.
      * exists i, d. rewrite elem_of_map_to_list, Hl. done.
  - apply Nat.eqb_neq in Hs. split; [by left|done].
Qed.

(** [sum] over the three axes, written out. *)
Lemma abs_delta_sum_fields a b :
  (abs_delta_sum a b
   == Qabs (vx a - vx b) + Qabs (vy a - vy b) + Qabs (vz a - vz b))%Q.
Proof. unfold abs_delta_sum, py_sum. cbn [List.map fold_left vget]. ring. Qed.

Lemma gate_correct pt rt found ref :
  gate pt rt found ref = true ↔ gate_passes_spec pt rt found ref.
Proof.
  rewrite gate_true. unfold gate_passes_spec, pos_change, rot_change.
  split.
  - intros [Hne|[Hnew|(i & d & r & Hm & Hl & Hc)]]; [by left|by right; left|].
    right; right. exists i, d, r. split; [done|]. split; [done|].
    by rewrite !abs_delta_sum_fields in Hc.
  - intros [Hne|[Hnew|(i & d & r & Hm & Hl & Hc)]]; [by left|by right; left|].
    right; right. exists i, d, r. split; [done|]. split; [done|].
    by rewrite !abs_delta_sum_fields.
Qed.

Lemma gate_identical pt rt m : (0 <= pt)%Q → (0 <= rt)%Q → gate pt rt m m = false.
Proof.
  intros Hp Hr. destruct (gate pt rt m m) eqn:E; [|done].
  apply gate_true in E as [Hne|[(i & d & Hm & Hl)|(i & d & r & Hm & Hl & Hc)]].
  - done.
  - congruence.
  - assert (d = r) by congruence. subst r. exfalso.
    unfold pos_change, rot_change in Hc.
    destruct Hc as [Hc|Hc]; rewrite abs_delta_sum_self in Hc;
      eapply Qlt_not_le; eauto.
Qed.

(** A gate with smaller thresholds passes whatever a gate with larger ones
    passes, against the same reference. *)
Lemma gate_mono pt rt pt' rt' found ref :
  (pt' <= pt)%Q → (rt' <= rt)%Q →
  gate pt rt found ref = true → gate pt' rt' found ref = true.
Proof.
  intros Hp Hr. rewrite !gate_true.
  intros [Hne|[Hnew|(i & d & r & Hm & Hl & Hc)]]; [by left|by right; left|].
  right; right. exists i, d, r. split; [done|]. split; [done|].
  destruct Hc as [Hc|Hc]; [left|right]; eapply Qle_lt_trans; eauto.
Qed.

(** *** The gate in binary64 *)

Lemma binary64_gate_loop_true pt rt items ref :
  Binary64.gate_loop pt rt items ref = true ↔
  ∃ i d, (i, d) ∈ items ∧
    match ref !! i with
    | None => True
    | Some r => PrimFloat.ltb pt (Binary64.pos_change d r) = true
                ∨ PrimFloat.ltb rt (Binary64.rot_change d r) = true
    end.
Proof.
  induction items as [|[i d] rest IH]; simpl.
  - split; [done|]. intros (i & d & Hin & _). by apply elem_of_nil in Hin.
  - destruct (ref !! i) as [r|] eqn:Hl.
    + destruct (PrimFloat.ltb pt (Binary64.pos_change d r)
                || PrimFloat.ltb rt (Binary64.rot_change d r)) eqn:Hc.
      * split; [|done]. intros _. exists i, d. split; [left|].
        rewrite Hl. by apply orb_true_iff in Hc.
      * rewrite IH. split.
        -- intros (j & e & Hin & Hj). exists j, e. split; [by right|done].
        -- intros (j & e & Hin & Hj). apply elem_of_cons in Hin as [Heq|Hin].
           ++ inversion Heq; subst j e. rewrite Hl in Hj.
              apply orb_false_iff in Hc as [Hp Hr].
              destruct Hj as [Hj|Hj]; congruence.
           ++ exists j, e. done.
    + split; [|done]. intros _. exists i, d. split; [left|]. by rewrite Hl.
Qed.

Lemma binary64_gate_correct pt rt found ref :
  Binary64.gate pt rt found ref = true ↔ Binary64.gate_passes_spec pt rt found ref.
Proof.
  unfold Binary64.gate, Binary64.gate_passes_spec.
  destruct (size found =? size ref)%nat eqn:Hs; simpl.
  - apply Nat.eqb_eq in Hs. rewrite binary64_gate_loop_true. split.
    + intros (i & d & Hin & Hm). apply elem_of_map_to_list in Hin.
      destruct (ref !! i) as [r|] eqn:Hl.
      * right; right. exists i, d, r. done.
      * right; left. exists i, d. done.
    + intros [Hne|[(i & d & Hm & Hl)|(i & d & r & Hm & Hl & Hc)]].
      * done.
      * exists i, d. rewrite elem_of_map_to_list, Hl. done.
      * exists i, d. rewrite elem_of_map_to_list, Hl. done.
  - apply Nat.eqb_neq in Hs. split; [by left|done].
Qed.

(** The difference of a float with itself is [0], or NaN for an infinity
    and for NaN. *)
Lemma binary64_abs_sub_self (x : float) :
  (abs (x - x) = 0 ∨ abs (x - x) = nan)%float.
Proof.
  assert (H : Prim2SF (abs (x - x)) = S754_zero false
              ∨ Prim2SF (abs (x - x)) = S754_nan).
  { rewrite abs_spec, sub_spec. unfold SF64sub.
    destruct (Prim2SF x) as [s|s| |s m e].
    - left. by destruct s.
    - right. by destruct s.
    - by right.
    - left. unfold SFsub. rewrite Z.sub_diag. reflexivity. }
  destruct H as [H|H]; [left|right]; apply Prim2SF_inj; rewrite H; reflexivity.
Qed.

Lemma binary64_ltb_nan (x : float) : (x <? nan)%float = false.
Proof. rewrite ltb_spec. by destruct (Prim2SF x) as [s|s| |s m e]. Qed.

Lemma binary64_self_delta (pt : float) (v : Binary64.vec3) :
  (pt <? 0)%float = false → (pt <? Binary64.abs_delta_sum v v)%float = false.
Proof.
  intros Hpt. unfold Binary64.abs_delta_sum, Binary64.py_sum.
  cbn [List.map fold_left Binary64.vget].
  destruct (binary64_abs_sub_self (Binary64.vx v)) as [-> | ->];
    destruct (binary64_abs_sub_self (Binary64.vy v)) as [-> | ->];
    destruct (binary64_abs_sub_self (Binary64.vz v)) as [-> | ->];
    first [exact Hpt | apply binary64_ltb_nan].
Qed.

Lemma binary64_gate_identical pt rt m :
  (pt <? 0)%float = false → (rt <? 0)%float = false →
  Binary64.gate pt rt m m = false.
Proof.
  intros Hp Hr. unfold Binary64.gate. rewrite Nat.eqb_refl. cbn [negb].
  destruct (Binary64.gate_loop pt rt (map_to_list m) m) eqn:E; [|done].
  apply binary64_gate_loop_true in E as (i & d & Hin & Hc).
  apply elem_of_map_to_list in Hin. rewrite Hin in Hc.
  unfold Binary64.pos_change, Binary64.rot_change in Hc.
  rewrite !binary64_self_delta in Hc by done. by destruct Hc.
Qed.

(** C1. A change gate ([should_update_history] with thresholds 0.015 and
    2.0, [should_broadcast] with 0.005 and 0.5) returns [True] exactly when the
    two snapshots differ in size, or the candidate has an entity absent from
    the reference, or for a common entity the sum over the three axes of the
    absolute differences of the two positions exceeds the positional
    threshold or the sum of the absolute differences of the two rotations
    exceeds the rotational threshold; a candidate identical to its reference
    is suppressed by both gates.  This holds of the gates as the interpreter
    evaluates them, the sums and comparisons being those of binary64, and of
    the gates in exact arithmetic. *)
Theorem change_gate_characterisation :
  (∀ found ref : gmap Z Binary64.marker,
     (Binary64.should_update_history found ref = true
        ↔ Binary64.gate_passes_spec 0.015 2 found ref)
     ∧ (Binary64.should_broadcast found ref = true
        ↔ Binary64.gate_passes_spec 0.005 0.5 found ref)
     ∧ Binary64.should_update_history found found = false
     ∧ Binary64.should_broadcast found found = false)
  ∧ (∀ found ref : gmap Z marker,
       (should_update_history found ref = true
          ↔ gate_passes_spec (15 # 1000) 2 found ref)
       ∧ (should_broadcast found ref = true
          ↔ gate_passes_spec (5 # 1000) (1 # 2) found ref)
       ∧ should_update_history found found = false
       ∧ should_broadcast found found = false).
Proof.
  split.
  - intros found ref. unfold Binary64.should_update_history, Binary64.should_broadcast.
    split; [apply binary64_gate_correct|]. split; [apply binary64_gate_correct|].
    split; apply binary64_gate_identical; reflexivity.
  - intros found ref. unfold should_update_history, should_broadcast.
    split; [apply gate_correct|]. split; [apply gate_correct|].
    split; apply gate_identical; done.
Qed.

(** A marker whose x moved from 0.002 to 0.017 passes the history gate in
    binary64, where the difference is 0.015000000000000001; marker 7 moved by
    6 mm passes the broadcast gate; and marker 7 compared with itself is
    suppressed by the history gate. *)
Lemma change_gate_characterisation_witness :
  Binary64.should_update_history {[ 7%Z := binary64_marker7_at_017 ]}
    {[ 7%Z := binary64_marker7_at_002 ]} = true
  ∧ should_broadcast {[ 7%Z := marker7_far ]} {[ 7%Z := marker7_near ]} = true
  ∧ should_update_history {[ 7%Z := marker7_far ]} {[ 7%Z := marker7_far ]} = false.
Proof.
  destruct change_gate_characterisation as [Hf Hq].
  destruct (Hf {[ 7%Z := binary64_marker7_at_017 ]}
               {[ 7%Z := binary64_marker7_at_002 ]}) as (Hh & _ & _ & _).
  destruct (Hq {[ 7%Z := marker7_far ]} {[ 7%Z := marker7_near ]})
    as (_ & Hb & _ & _).
  destruct (Hq {[ 7%Z := marker7_far ]} {[ 7%Z := marker7_far ]})
    as (_ & _ & Hs & _).
  split; [|split; [|exact Hs]].
  - apply Hh. right; right.
    exists 7%Z, binary64_marker7_at_017, binary64_marker7_at_002.
    split; [apply lookup_singleton_eq|]. split; [apply lookup_singleton_eq|].
    left. reflexivity.
  - apply Hb. right; right.
    exists 7%Z, marker7_far, marker7_near.
    split; [apply lookup_singleton_eq|]. split; [apply lookup_singleton_eq|].
    left. reflexivity.
Defined.

(** ** Detection *)

Section Detection.
Context `{D : Detector Frame Corners}.

(** The handler of [collage_tracker.py] logs exactly the ids whose
    processing raised, in order. *)
Lemma detect_loop_log (dets : list (Z * Corners)) found log :
  (detect_loop dets found log).2 = log ++ (filter (λ d, raises d = true) dets).*1.
Proof.
  revert found log. induction dets as [|[i c] dets IH]; intros found log.
  - simpl. by rewrite app_nil_r.
  - cbn [detect_loop]. rewrite filter_cons.
    destruct (solve_pose c) as [[[pos rot]|]|e] eqn:E; rewrite IH.
    + by rewrite decide_False by (unfold raises; cbn [snd]; by rewrite E).
    + by rewrite decide_False by (unfold raises; cbn [snd]; by rewrite E).
    + rewrite decide_True by (unfold raises; cbn [snd]; by rewrite E).
      by rewrite fmap_cons, <- app_assoc.
Qed.

(** The map it returns is the one it returns on the frame without the
    entities whose processing raised. *)
Lemma detect_loop_skips_raising (dets : list (Z * Corners)) found log log' :
  (detect_loop dets found log).1
  = (detect_loop (filter (λ d, raises d = false) dets) found log').1.
Proof.
  revert found log log'. induction dets as [|[i c] dets IH]; intros found log log'.
  - done.
  - rewrite filter_cons. cbn [detect_loop].
    destruct (solve_pose c) as [[[pos rot]|]|e] eqn:E.
    + rewrite decide_True by (unfold raises; cbn [snd]; by rewrite E).
      cbn [detect_loop]. rewrite E. apply IH.
    + rewrite decide_True by (unfold raises; cbn [snd]; by rewrite E).
      cbn [detect_loop]. rewrite E. apply IH.
    + rewrite decide_False by (unfold raises; cbn [snd]; by rewrite E). apply IH.
Qed.

Lemma detect_loop_keeps (dets : list (Z * Corners)) found log i :
  is_Some (found !! i) → is_Some ((detect_loop dets found log).1 !! i).
Proof.
  revert found log. induction dets as [|[j c] dets IH]; intros found log Hi; [done|].
  cbn [detect_loop]. destruct (solve_pose c) as [[[pos rot]|]|e]; apply IH; try done.
  destruct (decide (j = i)) as [->|Hne].
  - rewrite lookup_insert_eq. by eexists.
  - by rewrite lookup_insert_ne.
Qed.

Lemma detect_loop_keeps_value (dets : list (Z * Corners)) found log i m :
  i ∉ dets.*1 → found !! i = Some m → (detect_loop dets found log).1 !! i = Some m.
Proof.
  revert found log. induction dets as [|[j c] dets IH]; intros found log Hi Hm; [done|].
  rewrite fmap_cons, not_elem_of_cons in Hi. destruct Hi as [Hne Hi]. simpl in Hne.
  cbn [detect_loop]. destruct (solve_pose c) as [[[pos rot]|]|e]; apply IH; try done.
  by rewrite lookup_insert_ne.
Qed.

(** Every entity whose processing succeeded is in the returned map, and with
    its own pose when its id occurs once in the frame. *)
Lemma detect_loop_contains (dets : list (Z * Corners)) found log i c pos rot :
  (i, c) ∈ dets → solve_pose c = Ok (Some (pos, rot)) →
  is_Some ((detect_loop dets found log).1 !! i)
  ∧ (NoDup dets.*1 → (detect_loop dets found log).1 !! i = Some (Marker i pos rot)).
Proof.
  revert found log. induction dets as [|[j c'] dets IH]; intros found log Hin Hc.
  - by apply elem_of_nil in Hin.
  - apply elem_of_cons in Hin as [Heq|Hin].
    + inversion Heq; subst j c'. cbn [detect_loop]. rewrite Hc. split.
      * apply detect_loop_keeps. rewrite lookup_insert_eq. by eexists.
      * rewrite fmap_cons, NoDup_cons. intros [Hni _].
        apply detect_loop_keeps_value; [done|]. by rewrite lookup_insert_eq.
    + cbn [detect_loop]. rewrite fmap_cons, NoDup_cons.
      destruct (solve_pose c') as [[[p r]|]|e];
        (split; [by apply IH|]; intros [_ Hnd]; by apply IH).
Qed.

(** X4. Partial-failure isolation in [collage_tracker.py]: once the frame-level
    calls have returned, [detect_markers] returns a map, whatever the
    per-marker processing raises; the map is the one of the frame without the
    failing entities; it holds every entity processed successfully; and the
    failing ids are the ones logged. *)
Lemma detect_markers_isolates_failures (frame : Frame) dets :
  detect_frame frame = Ok (Some dets) →
  ∃ found log, detect_markers frame = Ok (found, log)
    ∧ found = (detect_loop (filter (λ d, raises d = false) dets) ∅ []).1
    ∧ log = (filter (λ d, raises d = true) dets).*1
    ∧ ∀ i c pos rot, (i, c) ∈ dets → solve_pose c = Ok (Some (pos, rot)) →
        is_Some (found !! i).
Proof.
  intros Hd. unfold detect_markers. rewrite Hd.
  destruct (detect_loop dets ∅ []) as [found log] eqn:E.
  exists found, log. split; [done|].
  replace found with (detect_loop dets ∅ []).1 by by rewrite E.
  replace log with (detect_loop dets ∅ []).2 by by rewrite E.
  split; [apply detect_loop_skips_raising|].
  split; [by rewrite detect_loop_log|].
  intros i c pos rot Hin Hc. by eapply detect_loop_contains.
Qed.

(** In [src/design_history_tracker.py] a single raising entity makes the
    whole call raise. *)
Lemma simplified_detect_loop_raises (dets : list (Z * Corners)) found i c e :
  (i, c) ∈ dets → solve_pose c = Raise e →
  ∃ e', Simplified.detect_loop dets found = Raise e'.
Proof.
  revert found. induction dets as [|[j c'] dets IH]; intros found Hin Hc.
  - by apply elem_of_nil in Hin.
  - cbn [Simplified.detect_loop].
    destruct (solve_pose c') as [[[p r]|]|e'] eqn:E; [| |by eexists];
      (apply elem_of_cons in Hin as [Heq|Hin];
       [inversion Heq; subst; congruence|by eapply IH]).
Qed.

End Detection.

(** C8 (the code at the failing input). On a frame with the markers 1 and
    2 where pose estimation raises for marker 1 only, [detect_markers] of
    [src/design_history_tracker.py] raises and returns no map at all, while
    [detect_markers] of [collage_tracker.py] returns the map with marker 2 and
    logs marker 1. *)
Theorem simplified_detect_markers_aborts_frame :
  @Simplified.detect_markers _ _ flaky_detector () = Raise DetectorError
  ∧ @detect_markers _ _ flaky_detector ()
    = Ok ({[ 2%Z := Marker 2 (Vec3 0 0 1) (Vec3 0 0 0) ]}, [1%Z]).
Proof. split; reflexivity. Qed.

(** ** The consumer registry and the dispatcher *)

Section Dispatch.
Context `{T : Transport}.

Lemma send_loop_registry message (l : list nat) s :
  registry (foldl (send_to message) s l) = registry s.
Proof.
  revert s. induction l as [|c l IH]; intros s; [done|].
  cbn [foldl]. rewrite IH. unfold send_to. by destruct (send c message).
Qed.

Lemma delivers_true message c : delivers message c = true ↔ send c message = Ok ().
Proof. unfold delivers. destruct (send c message) as [[]|e]; split; done. Qed.

Lemma send_loop_delivered message (l : list nat) s :
  delivered (foldl (send_to message) s l)
  = delivered s
    ++ ((λ c, (c, message)) <$> filter (λ c, delivers message c = true) l).
Proof.
  revert s. induction l as [|c l IH]; intros s.
  - simpl. by rewrite app_nil_r.
  - cbn [foldl]. rewrite IH, filter_cons. unfold send_to.
    destruct (send c message) as [[]|e] eqn:E.
    + rewrite decide_True by (unfold delivers; by rewrite E).
      simpl. by rewrite <- app_assoc.
    + by rewrite decide_False by (unfold delivers; by rewrite E).
Qed.

Lemma send_loop_disconnected message (l : list nat) s :
  disconnected (foldl (send_to message) s l)
  = disconnected s ++ filter (λ c, delivers message c = false) l.
Proof.
  revert s. induction l as [|c l IH]; intros s.
  - simpl. by rewrite app_nil_r.
  - cbn [foldl]. rewrite IH, filter_cons. unfold send_to.
    destruct (send c message) as [[]|e] eqn:E.
    + by rewrite decide_False by (unfold delivers; by rewrite E).
    + rewrite decide_True by (unfold delivers; by rewrite E).
      simpl. by rewrite <- app_assoc.
Qed.

Lemma foldl_set_discard (l : list nat) (cs : gset nat) :
  foldl set_discard cs l = cs ∖ list_to_set l.
Proof.
  revert cs. induction l as [|c l IH]; intros cs; simpl.
  - set_solver.
  - rewrite IH. unfold set_discard. set_solver.
Qed.

(** What one cycle of [broadcast] does to a non-empty registry. *)
Lemma broadcast_spec (cs : gset nat) (data : update) :
  cs ≠ ∅ →
  (∀ c, c ∈ (broadcast cs data).1 ↔ c ∈ cs ∧ send c (dumps data) = Ok ())
  ∧ (∀ c m, (c, m) ∈ (broadcast cs data).2
            ↔ m = dumps data ∧ c ∈ cs ∧ send c (dumps data) = Ok ()).
Proof.
  intros Hne. unfold broadcast. rewrite decide_False by done.
  cbn [fst snd]. unfold send_loop.
  rewrite send_loop_registry, send_loop_disconnected, send_loop_delivered.
  cbn [registry disconnected delivered app]. rewrite foldl_set_discard. split.
  - intros c. rewrite elem_of_difference, elem_of_list_to_set, list_elem_of_filter,
      elem_of_elements, <- delivers_true. split.
    + intros [Hc Hn]. split; [done|].
      destruct (delivers (dumps data) c); [done|]. exfalso. by apply Hn.
    + intros [Hc Hs]. split; [done|]. intros [Hn _]. congruence.
  - intros c m. rewrite list_elem_of_fmap, <- delivers_true. split.
    + intros (c' & Heq & Hin). inversion Heq; subst c' m.
      apply list_elem_of_filter in Hin as [Hs Hin]. by apply elem_of_elements in Hin.
    + intros (-> & Hc & Hs). exists c. split; [done|].
      apply list_elem_of_filter. split; [done|]. by apply elem_of_elements.
Qed.

End Dispatch.

(** *** The dispatcher among the connection handlers *)

Lemma interfere_nil (cs : gset nat) : interfere cs [] = (cs, false).
Proof. reflexivity. Qed.

Section DispatchAmong.
Context `{T : Transport}.

(** While no handler runs, the loop over the live registry is the loop of
    [broadcast]. *)
Lemma live_loop_undisturbed message during (cs : gset nat) (todo : list nat)
    (failed : list nat) (sent : list (nat * string)) :
  (∀ c, c ∈ todo → during c = []) →
  live_loop message during cs todo failed sent
  = let s := foldl (send_to message) (SendState cs failed sent) todo in
    Returns (foldl set_discard (registry s) (disconnected s)) (delivered s).
Proof.
  revert failed sent. induction todo as [|c todo IH]; intros failed sent Hq.
  - reflexivity.
  - cbn [live_loop foldl]. rewrite (Hq c) by left. rewrite interfere_nil.
    rewrite Nat.eqb_refl. cbn [negb].
    rewrite IH by (intros c' Hc'; apply Hq; by right).
    unfold send_to. by destruct (send c message).
Qed.

Lemma broadcast_among_undisturbed (cs : gset nat) (data : update) during :
  (∀ c, c ∈ cs → during c = []) →
  broadcast_among cs data (elements cs) during
  = Returns (broadcast cs data).1 (broadcast cs data).2.
Proof.
  intros Hq. unfold broadcast_among, broadcast.
  destruct (decide (cs = ∅)); [done|].
  rewrite live_loop_undisturbed; [done|].
  intros c Hc. apply Hq. by apply elem_of_elements.
Qed.

(** The first suspension after which the registry has another size ends the
    cycle: the consumers visited so far have been tried, the others are not,
    and nothing is discarded. *)
Lemma live_loop_size_changed message during (cs : gset nat)
    (visited : list nat) (c : nat) (rest : list nat)
    (failed : list nat) (sent : list (nat * string)) :
  (∀ c', c' ∈ visited → during c' = []) →
  size (interfere cs (during c)).1 ≠ size cs →
  live_loop message during cs (visited ++ c :: rest) failed sent
  = Raises RuntimeError (interfere cs (during c)).1
      (sent ++ ((λ c', (c', message))
                <$> filter (λ c', delivers message c' = true) (visited ++ [c]))).
Proof.
  revert failed sent. induction visited as [|v visited IH]; intros failed sent Hq Hsz.
  - cbn [app live_loop]. destruct (interfere cs (during c)) as [cs' changed].
    cbn [fst] in Hsz. apply Nat.eqb_neq in Hsz. rewrite Hsz. cbn [negb].
    f_equal. unfold send_to. rewrite filter_cons, filter_nil.
    destruct (send c message) as [[]|e] eqn:E; cbn [delivered].
    + by rewrite decide_True by (unfold delivers; by rewrite E).
    + rewrite decide_False by (unfold delivers; by rewrite E).
      by rewrite app_nil_r.
  - cbn [app live_loop]. rewrite (Hq v) by left. rewrite interfere_nil.
    rewrite Nat.eqb_refl. cbn [negb].
    rewrite IH by (try done; intros c' Hc'; apply Hq; by right).
    f_equal. unfold send_to. rewrite filter_cons.
    destruct (send v message) as [[]|e] eqn:E; cbn [delivered].
    + rewrite decide_True by (unfold delivers; by rewrite E).
      by rewrite fmap_cons, <- app_assoc.
    + by rewrite decide_False by (unfold delivers; by rewrite E).
Qed.

End DispatchAmong.

(** C6 (the code at the failing input). The consumers 1, 2, 3 are
    registered, the set yields them in this order, and the delivery to
    consumer 2 raises.  A cycle of [broadcast] during which no connection
    handler runs serves 1 and 3 and leaves the registry 1, 3.  When the
    handler of consumer 2 removes it from the registry while the delivery to
    consumer 2 is awaited, or when a consumer 4 connects while the delivery
    to consumer 1 is awaited, the [for] statement over the live registry
    raises [RuntimeError]: consumer 3 is not served, and in the second case
    consumer 2 stays registered.  The dispatcher of
    [src/design_history_tracker.py], which iterates over a copy, serves
    1 and 3 and drops 2 in both cases. *)
Theorem broadcast_over_live_registry_raises :
  [1; 2; 3] ≡ₚ elements ({[1; 2; 3]} : gset nat)
  ∧ @broadcast_among lossy_transport {[1; 2; 3]} sample_update [1; 2; 3] no_events
    = Returns {[1; 3]} [(1, "m"); (3, "m")]
  ∧ @broadcast_among lossy_transport {[1; 2; 3]} sample_update [1; 2; 3]
      consumer2_closes
    = Raises RuntimeError {[1; 3]} [(1, "m")]
  ∧ @broadcast_among lossy_transport {[1; 2; 3]} sample_update [1; 2; 3]
      consumer4_connects
    = Raises RuntimeError {[1; 2; 3; 4]} [(1, "m")]
  ∧ @Simplified.broadcast_among lossy_transport {[1; 2; 3]} sample_update
      [1; 2; 3] consumer2_closes
    = ({[1; 3]}, [(1, "m"); (3, "m")])
  ∧ @Simplified.broadcast_among lossy_transport {[1; 2; 3]} sample_update
      [1; 2; 3] consumer4_connects
    = ({[1; 3; 4]}, [(1, "m"); (3, "m")]).
Proof.
  split.
  { apply NoDup_Permutation; [by repeat constructor; set_solver|apply NoDup_elements|].
    intros x. rewrite elem_of_elements. set_solver. }
  repeat split; vm_compute; reflexivity.
Qed.

(** ** Removal from the registry *)

Lemma lossy_broadcast_registry :
  (@broadcast lossy_transport {[1; 2; 3]} sample_update).1 = {[1; 3]}.
Proof.
  destruct (@broadcast_spec lossy_transport {[1; 2; 3]} sample_update) as [Hreg _];
    [set_solver|].
  apply set_eq. intros c. rewrite Hreg. simpl. split.
  - intros [Hc Hs]. destruct (c =? 2)%nat eqn:E; [done|].
    apply Nat.eqb_neq in E. set_solver.
  - intros Hc. assert (c = 1 ∨ c = 3)%nat as [->| ->] by set_solver;
      (split; [set_solver|done]).
Qed.

Lemma set_discard_absent (cs : gset nat) (c : nat) : c ∉ cs → set_discard cs c = cs.
Proof. unfold set_discard. set_solver. Qed.

Lemma set_remove_absent (cs : gset nat) (c : nat) :
  c ∉ cs → handle_client_finally cs c = Raise KeyError.
Proof.
  intros Hc. unfold handle_client_finally, set_remove. by rewrite decide_False.
Qed.

(** C9 (the code at the failing input). With the consumers 1, 2, 3
    registered and the delivery to consumer 2 failing, the dispatcher removes
    consumer 2; the disconnect cleanup of consumer 2 that runs afterwards
    ([self.clients.remove(websocket)] in [handle_client]) raises [KeyError],
    where the dispatcher's own [discard] of an absent consumer changes
    nothing and raises nothing. *)
Theorem disconnect_cleanup_after_dispatcher_removal_raises :
  let cs := (@broadcast lossy_transport {[1; 2; 3]} sample_update).1 in
  cs = {[1; 3]}
  ∧ handle_client_finally cs 2 = Raise KeyError
  ∧ set_discard cs 2 = cs.
Proof.
  cbv zeta. rewrite lossy_broadcast_registry.
  split; [done|]. split.
  - apply set_remove_absent. set_solver.
  - apply set_discard_absent. set_solver.
Qed.

(** ** The history log *)

Lemma ensure_marker_entries dh ks' ks k e :
  has_entry (ensure_marker dh ks') ks k e ↔ has_entry dh ks k e.
Proof.
  unfold ensure_marker. destruct (dh !! ks') as [h'|] eqn:E; [done|].
  unfold has_entry. destruct (decide (ks = ks')) as [->|Hne].
  - rewrite lookup_insert_eq, E. split; intros (h & Hh & He); [|done].
    inversion Hh; subst h. by rewrite lookup_empty in He.
  - by rewrite lookup_insert_ne.
Qed.

Section History.
Variables (dflt : vec3 * vec3) (cfg : Config) (fallback : gmap string json).
Variables (found last : gmap Z marker) (fc : nat).

Local Abbreviation rec1 := (record_ok dflt cfg fallback found last fc).
Local Abbreviation entry i := (entry_for dflt cfg fallback found last i).

Lemma record_ok_lookup_eq dh i :
  rec1 dh i !! pretty i
  = Some (<[pretty fc := entry i]> (default ∅ (dh !! pretty i))).
Proof.
  unfold record_ok, ensure_marker. destruct (dh !! pretty i) as [h|] eqn:E.
  - by rewrite lookup_alter_eq, E.
  - by rewrite lookup_alter_eq, lookup_insert_eq.
Qed.

Lemma record_ok_lookup_ne dh i ks :
  ks ≠ pretty i → rec1 dh i !! ks = dh !! ks.
Proof.
  intros Hne. unfold record_ok, ensure_marker. rewrite lookup_alter_ne by done.
  destruct (dh !! pretty i); [done|]. by rewrite lookup_insert_ne.
Qed.

(** The body of the loop writes the entry of its marker ... *)
Lemma record_ok_writes dh i : has_entry (rec1 dh i) (pretty i) (pretty fc) (entry i).
Proof.
  eexists. split; [apply record_ok_lookup_eq|]. by rewrite lookup_insert_eq.
Qed.

(** ... keeps every entry under another frame key ... *)
Lemma record_ok_preserves dh i ks k e :
  k ≠ pretty fc → has_entry dh ks k e → has_entry (rec1 dh i) ks k e.
Proof.
  intros Hk (h & Hh & He). destruct (decide (ks = pretty i)) as [->|Hne].
  - eexists. split; [apply record_ok_lookup_eq|].
    rewrite Hh. simpl. by rewrite lookup_insert_ne.
  - exists h. by rewrite record_ok_lookup_ne.
Qed.

(** ... and adds nothing else. *)
Lemma record_ok_only_adds dh i ks k e :
  has_entry (rec1 dh i) ks k e →
  has_entry dh ks k e ∨ (ks = pretty i ∧ k = pretty fc ∧ e = entry i).
Proof.
  intros (h & Hh & He). destruct (decide (ks = pretty i)) as [->|Hne].
  - rewrite record_ok_lookup_eq in Hh. inversion Hh; subst h; clear Hh.
    destruct (decide (k = pretty fc)) as [->|Hk].
    + rewrite lookup_insert_eq in He. right. by inversion He.
    + rewrite lookup_insert_ne in He by done. left.
      destruct (dh !! pretty i) as [h|] eqn:E; simpl in He; [by exists h|done].
  - rewrite record_ok_lookup_ne in Hh by done. left. by exists h.
Qed.

Lemma record_ok_keeps_written dh i j :
  has_entry dh (pretty j) (pretty fc) (entry j) →
  has_entry (rec1 dh i) (pretty j) (pretty fc) (entry j).
Proof.
  intros (h & Hh & He). destruct (decide (i = j)) as [->|Hne].
  - apply record_ok_writes.
  - exists h. rewrite record_ok_lookup_ne; [done|].
    intros Heq. apply Hne. symmetry. by apply (inj pretty).
Qed.

Lemma record_all_preserves (l : list Z) dh ks k e :
  k ≠ pretty fc → has_entry dh ks k e → has_entry (foldl rec1 dh l) ks k e.
Proof.
  intros Hk. revert dh. induction l as [|i l IH]; intros dh He; [done|].
  cbn [foldl]. apply IH. by apply record_ok_preserves.
Qed.

Lemma record_all_keeps_written (l : list Z) dh j :
  has_entry dh (pretty j) (pretty fc) (entry j) →
  has_entry (foldl rec1 dh l) (pretty j) (pretty fc) (entry j).
Proof.
  revert dh. induction l as [|i l IH]; intros dh He; [done|].
  cbn [foldl]. apply IH. by apply record_ok_keeps_written.
Qed.

Lemma record_all_writes (l : list Z) dh j :
  j ∈ l → has_entry (foldl rec1 dh l) (pretty j) (pretty fc) (entry j).
Proof.
  revert dh. induction l as [|i l IH]; intros dh Hin.
  - by apply elem_of_nil in Hin.
  - cbn [foldl]. apply elem_of_cons in Hin as [->|Hin]; [|by apply IH].
    apply record_all_keeps_written, record_ok_writes.
Qed.

Lemma record_all_only_adds (l : list Z) dh ks k e :
  has_entry (foldl rec1 dh l) ks k e →
  has_entry dh ks k e
  ∨ (∃ i, i ∈ l ∧ ks = pretty i ∧ k = pretty fc ∧ e = entry i).
Proof.
  revert dh. induction l as [|i l IH]; intros dh He; [by left|].
  cbn [foldl] in He. apply IH in He as [He|(j & Hj & ? & ? & ?)].
  - apply record_ok_only_adds in He as [He|(? & ? & ?)]; [by left|].
    right. exists i. split; [left|done].
  - right. exists j. split; [by right|done].
Qed.

(** With the default payload in the configuration the loop runs to its end
    and is the fold of the successful body. *)
Lemma record_loop_ok (l : list Z) dh :
  config_default cfg = Some fallback →
  record_loop dflt cfg found last fc dh l = (foldl rec1 dh l, None).
Proof.
  intros Hc. revert dh. induction l as [|i l IH]; intros dh; [done|].
  cbn [record_loop foldl]. unfold record_one. rewrite Hc. apply IH.
Qed.

End History.

(** Without it the first iteration raises, having written no entry. *)
Lemma record_loop_fail dflt cfg found last fc (l : list Z) dh :
  config_default cfg = None →
  record_loop dflt cfg found last fc dh l
  = match l with
    | [] => (dh, None)
    | i :: _ => (ensure_marker dh (pretty i), Some KeyError)
    end.
Proof.
  intros Hc. destruct l as [|i l]; [done|].
  cbn [record_loop]. unfold record_one. by rewrite Hc.
Qed.

(** For an id of either snapshot the pose comes from a snapshot, whatever
    the default is. *)
Lemma lookup_data_source dflt (found last : gmap Z marker) i :
  i ∈ all_ids found last →
  ∃ d, pose_source found last i d ∧ lookup_data dflt found last i = marker_pose d.
Proof.
  unfold all_ids, lookup_data, pose_source. rewrite elem_of_union, !elem_of_dom.
  intros Hi. destruct (found !! i) as [d|] eqn:Ef; [exists d; by split; [left|]|].
  destruct (last !! i) as [d|] eqn:El; [exists d; by split; [right|]|].
  destruct Hi as [[? ?]|[? ?]]; done.
Qed.

Lemma lookup_data_default_irrelevant dflt dflt' (found last : gmap Z marker) i :
  i ∈ all_ids found last →
  lookup_data dflt found last i = lookup_data dflt' found last i.
Proof.
  intros Hi.
  destruct (lookup_data_source dflt found last i Hi) as (d & Hs & ->).
  unfold lookup_data. by destruct Hs as [->|[-> ->]].
Qed.

Lemma foldl_ext_in {A B} (f g : A → B → A) (l : list B) (a : A) :
  (∀ x b, x ∈ l → f b x = g b x) → foldl f a l = foldl g a l.
Proof.
  revert a. induction l as [|x l IH]; intros a Hfg; [done|].
  cbn [foldl]. rewrite (Hfg x a) by left. apply IH.
  intros y b Hy. apply Hfg. by right.
Qed.

Lemma history_wf_fresh dh fc ks k e :
  history_wf dh fc → has_entry dh ks k e → k ≠ pretty fc.
Proof.
  intros Hwf He. destruct (Hwf ks k e He) as (n & -> & Hn).
  intros Heq. apply (inj pretty) in Heq. lia.
Qed.

Lemma history_wf_empty fc : history_wf ∅ fc.
Proof. intros ks k e (h & Hh & _). by rewrite lookup_empty in Hh. Qed.

Lemma history_wf_mono dh fc fc' :
  (fc ≤ fc')%nat → history_wf dh fc → history_wf dh fc'.
Proof.
  intros Hle Hwf ks k e He. destruct (Hwf ks k e He) as (n & -> & Hn).
  exists n. split; [done|lia].
Qed.

Section Recorder.
Variables (dflt : vec3 * vec3) (st : tracker) (found : gmap Z marker).

Local Abbreviation ids := (elements (all_ids found (last_states st))).

(** The two ways an invocation ends. *)
Lemma update_history_ok fallback :
  config_default (config st) = Some fallback →
  update_history_with dflt st found
  = (Tracker (clients st) (config st)
       (foldl (record_ok dflt (config st) fallback found (last_states st)
                         (frame_count st))
              (design_history st) ids)
       (last_states st) (S (frame_count st)), None).
Proof.
  intros Hc. unfold update_history_with. by rewrite (record_loop_ok _ _ fallback).
Qed.

Lemma update_history_fail :
  config_default (config st) = None →
  update_history_with dflt st found
  = match ids with
    | [] => (Tracker (clients st) (config st) (design_history st) (last_states st)
               (S (frame_count st)), None)
    | i :: _ => (Tracker (clients st) (config st)
                   (ensure_marker (design_history st) (pretty i))
                   (last_states st) (frame_count st), Some KeyError)
    end.
Proof.
  intros Hc. unfold update_history_with. rewrite record_loop_fail by done.
  by destruct ids.
Qed.

(** An invocation never touches the reference snapshot, the configuration
    or the registry. *)
Lemma update_history_last_states :
  last_states (update_history_with dflt st found).1 = last_states st.
Proof.
  unfold update_history_with. by destruct (record_loop _ _ _ _ _ _ _) as [dh [e|]].
Qed.

Lemma update_history_config :
  config (update_history_with dflt st found).1 = config st.
Proof.
  unfold update_history_with. by destruct (record_loop _ _ _ _ _ _ _) as [dh [e|]].
Qed.

(** It raises exactly when there is an id to record and the configuration
    lacks the default payload. *)
Lemma update_history_raised :
  (update_history_with dflt st found).2
  = match config_default (config st) with
    | Some _ => None
    | None => if decide (all_ids found (last_states st) = ∅) then None
              else Some KeyError
    end.
Proof.
  destruct (config_default (config st)) as [fallback|] eqn:Hc.
  - by rewrite (update_history_ok fallback).
  - rewrite update_history_fail by done.
    destruct ids as [|i l] eqn:E.
    + apply elements_empty_inv in E. apply leibniz_equiv in E.
      by rewrite decide_True.
    + rewrite decide_False; [done|]. intros He. rewrite He in E.
      by rewrite elements_empty in E.
Qed.

(** The counter advances by one when the invocation returns, and not at all
    when it raises. *)
Lemma update_history_frame_count :
  frame_count (update_history_with dflt st found).1
  = match (update_history_with dflt st found).2 with
    | None => S (frame_count st)
    | Some _ => frame_count st
    end.
Proof.
  unfold update_history_with. by destruct (record_loop _ _ _ _ _ _ _) as [dh [e|]].
Qed.

(** One invocation keeps every entry of a well-formed log ... *)
Lemma update_history_keeps ks k e :
  history_wf (design_history st) (frame_count st) →
  has_entry (design_history st) ks k e →
  has_entry (design_history (update_history_with dflt st found).1) ks k e.
Proof.
  intros Hwf He. destruct (config_default (config st)) as [fallback|] eqn:Hc.
  - rewrite (update_history_ok fallback) by done. cbn [fst design_history].
    apply record_all_preserves; [|done]. by eapply history_wf_fresh.
  - rewrite update_history_fail by done.
    destruct ids; cbn [fst design_history]; [done|].
    by apply ensure_marker_entries.
Qed.

(** ... adds entries under the current counter only, for ids of the two
    snapshots ... *)
Lemma update_history_only_adds ks k e :
  has_entry (design_history (update_history_with dflt st found).1) ks k e →
  has_entry (design_history st) ks k e
  ∨ (∃ i fallback, config_default (config st) = Some fallback
       ∧ i ∈ all_ids found (last_states st) ∧ ks = pretty i
       ∧ k = pretty (frame_count st)
       ∧ e = entry_for dflt (config st) fallback found (last_states st) i).
Proof.
  destruct (config_default (config st)) as [fallback|] eqn:Hc.
  - rewrite (update_history_ok fallback) by done. cbn [fst design_history].
    intros He. apply record_all_only_adds in He as [He|(i & Hi & ?)]; [by left|].
    right. exists i, fallback. by rewrite elem_of_elements in Hi.
  - rewrite update_history_fail by done.
    destruct ids; cbn [fst design_history]; intros He; left; [done|].
    by apply ensure_marker_entries in He.
Qed.

(** ... one for each such id, when it returns ... *)
Lemma update_history_writes fallback i :
  config_default (config st) = Some fallback →
  i ∈ all_ids found (last_states st) →
  has_entry (design_history (update_history_with dflt st found).1)
            (pretty i) (pretty (frame_count st))
            (entry_for dflt (config st) fallback found (last_states st) i).
Proof.
  intros Hc Hi. rewrite (update_history_ok fallback) by done.
  cbn [fst design_history]. apply record_all_writes. by rewrite elem_of_elements.
Qed.

(** ... and leaves the log well formed for the counter it leaves. *)
Lemma update_history_wf :
  history_wf (design_history st) (frame_count st) →
  history_wf (design_history (update_history_with dflt st found).1)
             (frame_count (update_history_with dflt st found).1).
Proof.
  intros Hwf ks k e He.
  assert (Hfc : (frame_count st ≤ frame_count (update_history_with dflt st found).1)%nat).
  { rewrite update_history_frame_count.
    destruct ((update_history_with dflt st found).2); lia. }
  apply update_history_only_adds in He as [He|(i & fallback & Hc & _ & _ & -> & _)].
  - destruct (Hwf ks k e He) as (n & -> & Hn). exists n. split; [done|lia].
  - exists (frame_count st). split; [done|].
    rewrite (update_history_ok fallback) by done. simpl. lia.
Qed.

End Recorder.

Lemma recorder_call_wf st call :
  history_wf (design_history st) (frame_count st) →
  history_wf (design_history (recorder_call st call).1)
             (frame_count (recorder_call st call).1).
Proof.
  intros Hwf. unfold recorder_call, update_history.
  by apply (update_history_wf default_pose
              (Tracker (clients st) (config st) (design_history st) call.2
                       (frame_count st)) call.1).
Qed.

Lemma recorder_call_keeps st call ks k e :
  history_wf (design_history st) (frame_count st) →
  has_entry (design_history st) ks k e →
  has_entry (design_history (recorder_call st call).1) ks k e.
Proof.
  intros Hwf He. unfold recorder_call, update_history.
  by apply (update_history_keeps default_pose
              (Tracker (clients st) (config st) (design_history st) call.2
                       (frame_count st)) call.1).
Qed.

Lemma recorder_call_config st call : config (recorder_call st call).1 = config st.
Proof. unfold recorder_call, update_history. by rewrite update_history_config. Qed.

Lemma recorder_run_wf calls st :
  history_wf (design_history st) (frame_count st) →
  history_wf (design_history (recorder_run st calls))
             (frame_count (recorder_run st calls)).
Proof.
  revert st. induction calls as [|c calls IH]; intros st Hwf; [done|].
  unfold recorder_run in *. cbn [foldl]. apply IH. by apply recorder_call_wf.
Qed.

Lemma recorder_run_keeps calls st ks k e :
  history_wf (design_history st) (frame_count st) →
  has_entry (design_history st) ks k e →
  has_entry (design_history (recorder_run st calls)) ks k e.
Proof.
  revert st. induction calls as [|c calls IH]; intros st Hwf He; [done|].
  unfold recorder_run in *. cbn [foldl]. apply IH.
  - by apply recorder_call_wf.
  - by apply recorder_call_keeps.
Qed.

Lemma recorder_run_config calls st : config (recorder_run st calls) = config st.
Proof.
  revert st. induction calls as [|c calls IH]; intros st; [done|].
  unfold recorder_run in *. cbn [foldl]. by rewrite IH, recorder_call_config.
Qed.

Lemma recorder_run_frame_count calls st :
  is_Some (config_default (config st)) →
  frame_count (recorder_run st calls) = (frame_count st + length calls)%nat.
Proof.
  revert st. induction calls as [|c calls IH]; intros st Hc.
  - simpl. lia.
  - unfold recorder_run in *. cbn [foldl length].
    rewrite IH by by rewrite recorder_call_config.
    unfold recorder_call, update_history. rewrite update_history_frame_count,
      update_history_raised. cbn [config frame_count].
    destruct Hc as [fallback ->]. cbn [length]. lia.
Qed.

(** ** The orchestrator loop *)

Section MainLoop.
Context `{T : Transport}.

Lemma recording_step_last_states st r :
  last_states (recording_step st r).1 = last_states st.
Proof.
  unfold recording_step, update_history.
  destruct (should_update_history _ _); [apply update_history_last_states|done].
Qed.

Lemma recording_step_config st r : config (recording_step st r).1 = config st.
Proof.
  unfold recording_step, update_history.
  destruct (should_update_history _ _); [apply update_history_config|done].
Qed.

Lemma recording_step_frame_count st r :
  (recording_step st r).2 = None →
  frame_count (recording_step st r).1
  = (frame_count st
     + if should_update_history (markers r) (last_states st) then 1 else 0)%nat.
Proof.
  unfold recording_step, update_history.
  destruct (should_update_history _ _); cbn [fst snd]; [|lia].
  intros Hr. rewrite update_history_frame_count, Hr. lia.
Qed.

Lemma recording_step_ok st r :
  is_Some (config_default (config st)) → (recording_step st r).2 = None.
Proof.
  intros [fallback Hc]. unfold recording_step, update_history.
  destruct (should_update_history _ _); [|done].
  by rewrite update_history_raised, Hc.
Qed.

Lemma recording_step_wf st r :
  history_wf (design_history st) (frame_count st) →
  history_wf (design_history (recording_step st r).1)
             (frame_count (recording_step st r).1).
Proof.
  intros Hwf. unfold recording_step, update_history.
  destruct (should_update_history _ _); [by apply update_history_wf|done].
Qed.

Lemma recording_step_keeps st r ks k e :
  history_wf (design_history st) (frame_count st) →
  has_entry (design_history st) ks k e →
  has_entry (design_history (recording_step st r).1) ks k e.
Proof.
  intros Hwf He. unfold recording_step, update_history.
  destruct (should_update_history _ _); [by apply update_history_keeps|done].
Qed.

(** An iteration is its recording step followed, when that returned, by
    the broadcast step. *)
Lemma main_loop_body_unfold st r now :
  (main_loop_body st r now).1
  = match (recording_step st r).2 with
    | Some e => ((recording_step st r).1, Some e)
    | None =>
        let st1 := (recording_step st r).1 in
        if should_broadcast (markers r) (last_states st) then
          (Tracker (broadcast (clients st1)
                      (Update "tracking_update" (markers r) now
                              (processing_time r))).1
                   (config st1) (design_history st1) (markers r)
                   (frame_count st1), None)
        else (st1, None)
    end.
Proof.
  unfold main_loop_body. fold (recording_step st r).
  pose proof (recording_step_last_states st r) as Hl.
  destruct (recording_step st r) as [st1 [e|]]; cbn [fst snd] in *; [done|].
  rewrite Hl. destruct (should_broadcast (markers r) (last_states st)); [|done].
  by destruct (broadcast _ _).
Qed.

Lemma main_loop_body_raised st r now :
  (main_loop_body st r now).1.2 = (recording_step st r).2.
Proof.
  rewrite main_loop_body_unfold.
  destruct (recording_step st r) as [st1 [e|]]; cbn [fst snd]; [done|].
  by destruct (should_broadcast _ _).
Qed.

Lemma main_loop_body_last_states st r now :
  last_states (main_loop_body st r now).1.1
  = match (main_loop_body st r now).1.2 with
    | Some _ => last_states st
    | None => if should_broadcast (markers r) (last_states st) then markers r
              else last_states st
    end.
Proof.
  rewrite main_loop_body_raised, main_loop_body_unfold.
  pose proof (recording_step_last_states st r) as Hl.
  destruct (recording_step st r) as [st1 [e|]]; cbn [fst snd] in *; [done|].
  by destruct (should_broadcast _ _).
Qed.

Lemma main_loop_body_config st r now :
  config (main_loop_body st r now).1.1 = config st.
Proof.
  rewrite main_loop_body_unfold.
  pose proof (recording_step_config st r) as Hl.
  destruct (recording_step st r) as [st1 [e|]]; cbn [fst snd] in *; [done|].
  by destruct (should_broadcast _ _).
Qed.

Lemma main_loop_body_frame_count st r now :
  (main_loop_body st r now).1.2 = None →
  frame_count (main_loop_body st r now).1.1
  = (frame_count st
     + if should_update_history (markers r) (last_states st) then 1 else 0)%nat.
Proof.
  rewrite main_loop_body_raised. intros Hr.
  rewrite <- (recording_step_frame_count st r Hr), main_loop_body_unfold, Hr.
  by destruct (should_broadcast _ _).
Qed.

Lemma main_loop_body_history st r now :
  design_history (main_loop_body st r now).1.1
  = design_history (recording_step st r).1
  ∧ (frame_count (main_loop_body st r now).1.1
     = frame_count (recording_step st r).1).
Proof.
  rewrite main_loop_body_unfold.
  destruct (recording_step st r) as [st1 [e|]]; cbn [fst snd]; [done|].
  by destruct (should_broadcast _ _).
Qed.

Lemma main_loop_body_wf st r now :
  history_wf (design_history st) (frame_count st) →
  history_wf (design_history (main_loop_body st r now).1.1)
             (frame_count (main_loop_body st r now).1.1).
Proof.
  intros Hwf. destruct (main_loop_body_history st r now) as [-> ->].
  by apply recording_step_wf.
Qed.

Lemma main_loop_body_keeps st r now ks k e :
  history_wf (design_history st) (frame_count st) →
  has_entry (design_history st) ks k e →
  has_entry (design_history (main_loop_body st r now).1.1) ks k e.
Proof.
  intros Hwf He. destruct (main_loop_body_history st r now) as [-> _].
  by apply recording_step_keeps.
Qed.

Lemma main_loop_run_keeps results st ks k e :
  history_wf (design_history st) (frame_count st) →
  has_entry (design_history st) ks k e →
  has_entry (design_history (main_loop_run st results)) ks k e.
Proof.
  revert st. induction results as [|[r now] results IH]; intros st Hwf He; [done|].
  cbn [main_loop_run].
  pose proof (main_loop_body_wf st r now Hwf) as Hwf'.
  pose proof (main_loop_body_keeps st r now ks k e Hwf He) as He'.
  destruct (main_loop_body st r now).1 as [st' [x|]]; cbn [fst] in *; [done|].
  by apply IH.
Qed.

Lemma main_loop_run_wf results st :
  history_wf (design_history st) (frame_count st) →
  history_wf (design_history (main_loop_run st results))
             (frame_count (main_loop_run st results)).
Proof.
  revert st. induction results as [|[r now] results IH]; intros st Hwf; [done|].
  cbn [main_loop_run].
  pose proof (main_loop_body_wf st r now Hwf) as Hwf'.
  destruct (main_loop_body st r now).1 as [st' [x|]]; cbn [fst] in *; [done|].
  by apply IH.
Qed.

Lemma main_loop_run_last_states results st :
  is_Some (config_default (config st)) →
  last_states (main_loop_run st results)
  = last_passing should_broadcast (last_states st) ((λ r, markers r.1) <$> results).
Proof.
  revert st. induction results as [|[r now] results IH]; intros st Hc; [done|].
  cbn [main_loop_run]. unfold last_passing in *. cbn [foldl fmap list_fmap fst].
  pose proof (main_loop_body_last_states st r now) as Hl.
  pose proof (main_loop_body_config st r now) as Hcfg.
  pose proof (main_loop_body_raised st r now) as Hr.
  rewrite (recording_step_ok st r Hc) in Hr.
  destruct (main_loop_body st r now).1 as [st' [x|]]; cbn [fst snd] in *; [done|].
  rewrite IH by by rewrite Hcfg. by rewrite Hl.
Qed.

End MainLoop.

(** With a configuration file that has no ['default'] key, the first
    recording raises [KeyError]: nothing is recorded for marker 7 and the
    counter stays at 0. *)
Lemma update_history_without_default_raises :
  let o := update_history (tracker_init config_without_default)
                          {[ 7%Z := marker7_near ]} in
  o.2 = Some KeyError
  ∧ frame_count o.1 = 0%nat
  ∧ ∀ ks k e, ¬ has_entry (design_history o.1) ks k e.
Proof.
  cbv zeta. unfold update_history.
  rewrite update_history_fail by done.
  assert (Hids : elements (all_ids {[ 7%Z := marker7_near ]}
                   (last_states (tracker_init config_without_default))) = [7%Z]).
  { unfold all_ids. cbn [tracker_init last_states].
    rewrite dom_singleton_L, dom_empty_L, union_empty_r_L.
    apply elements_singleton. }
  rewrite Hids. cbn [fst snd frame_count design_history tracker_init].
  split; [done|]. split; [done|].
  intros ks k e He. apply ensure_marker_entries in He.
  destruct He as (h & Hh & _). by rewrite lookup_empty in Hh.
Qed.

(** C7. The history log is append-only.  For any recorder invocations
    [before] and [later] since start-up, every entry of the log after
    [before] is in the log, unchanged, after [later].  One invocation that
    returns advances the frame counter by one and has written an entry under
    the old counter value for every id of the candidate or of the last state;
    whether it returns or raises, it adds nothing but entries under that
    counter value for such ids; and it returns whenever the configuration has
    its default payload, in which case the counter advances by the number of
    invocations.  In the orchestrator loop the counter advances exactly in
    the iterations whose candidate passes the history gate, and every entry
    present after some iterations is still present after any further ones. *)
Theorem history_log_append_only `{Transport} (cfg : Config)
    (before later : list (gmap Z marker * gmap Z marker)) :
  let st := recorder_run (tracker_init cfg) before in
  let st' := recorder_run st later in
  (∀ ks k e, has_entry (design_history st) ks k e →
             has_entry (design_history st') ks k e)
  ∧ (∀ call,
       ((recorder_call st call).2 = None →
          frame_count (recorder_call st call).1 = S (frame_count st)
          ∧ ∀ i, i ∈ all_ids call.1 call.2 →
              ∃ e, has_entry (design_history (recorder_call st call).1)
                             (pretty i) (pretty (frame_count st)) e)
       ∧ (∀ ks k e, has_entry (design_history (recorder_call st call).1) ks k e →
            has_entry (design_history st) ks k e
            ∨ (∃ i, i ∈ all_ids call.1 call.2 ∧ ks = pretty i
                    ∧ k = pretty (frame_count st)))
       ∧ (is_Some (config_default cfg) → (recorder_call st call).2 = None))
  ∧ (is_Some (config_default cfg) →
       frame_count st' = (frame_count st + length later)%nat)
  ∧ (∀ s r now,
       (main_loop_body s r now).1.2 = None →
       frame_count (main_loop_body s r now).1.1
       = (frame_count s
          + if should_update_history (markers r) (last_states s) then 1 else 0)%nat)
  ∧ (∀ results more ks k e,
       has_entry (design_history (main_loop_run (tracker_init cfg) results)) ks k e →
       has_entry (design_history
                    (main_loop_run (main_loop_run (tracker_init cfg) results) more))
                 ks k e).
Proof.
  intros st st'.
  assert (Hwf : history_wf (design_history st) (frame_count st)).
  { apply recorder_run_wf, history_wf_empty. }
  assert (Hcfg : config st = cfg) by apply recorder_run_config.
  split; [intros ks k e; by apply recorder_run_keeps|].
  split.
  { intros call. unfold recorder_call, update_history.
    set (s := Tracker (clients st) (config st) (design_history st) call.2
                      (frame_count st)).
    split; [|split].
    - intros Hr. split.
      + by rewrite update_history_frame_count, Hr.
      + intros i Hi. rewrite update_history_raised in Hr. cbn [s config] in Hr.
        destruct (config_default (config st)) as [fallback|] eqn:Hc.
        * eexists. by apply (update_history_writes default_pose s call.1 fallback).
        * cbn [s last_states] in Hr. destruct (decide _) as [He|]; [|done].
          rewrite He in Hi. set_solver.
    - intros ks k e He.
      apply update_history_only_adds in He as [He|(i & fb & _ & Hi & -> & -> & _)];
        [by left|].
      right. by exists i.
    - intros [fallback Hc]. rewrite update_history_raised. cbn [s config].
      by rewrite Hcfg, Hc. }
  split.
  { intros Hc. apply recorder_run_frame_count. by rewrite Hcfg. }
  split; [intros; by apply main_loop_body_frame_count|].
  intros results more ks k e He.
  apply main_loop_run_keeps; [|done].
  apply main_loop_run_wf, history_wf_empty.
Qed.

(** The entry of marker 7 written by the first invocation survives a
    second invocation that no longer sees the marker. *)
Lemma history_log_append_only_witness :
  ∃ e, has_entry
         (design_history
            (recorder_run
               (recorder_run (tracker_init plain_config)
                             [({[ 7%Z := marker7_near ]}, ∅)])
               [(∅, {[ 7%Z := marker7_near ]})]))
         (pretty 7%Z) (pretty 0%nat) e.
Proof.
  exists (entry_for default_pose plain_config ∅ {[ 7%Z := marker7_near ]} ∅ 7%Z).
  apply (proj1 (@history_log_append_only quiet_transport plain_config
                  [({[ 7%Z := marker7_near ]}, ∅)]
                  [(∅, {[ 7%Z := marker7_near ]})])).
  apply (update_history_writes default_pose (tracker_init plain_config)
           {[ 7%Z := marker7_near ]} ∅ 7%Z); [done|].
  unfold all_ids. cbn [tracker_init last_states]. set_solver.
Defined.

(** What [history_entry] holds: the pose under ["pos-rot"], and the payload
    under every other key. *)
Lemma history_entry_fields (payload : gmap string json) (d : marker) :
  history_entry payload (marker_pose d) !! "pos-rot"
  = Some (JObj [("x", JNum (vx (position d))); ("y", JNum (vy (position d)));
                ("z", JNum (vz (position d)));
                ("rx", JNum (vx (rotation d))); ("ry", JNum (vy (rotation d)));
                ("rz", JNum (vz (rotation d)));
                ("s", JNum (1 # 10))])
  ∧ ∀ key, key ≠ "pos-rot" →
      history_entry payload (marker_pose d) !! key = payload !! key.
Proof.
  unfold history_entry, marker_pose. cbn [fst snd]. split.
  - by rewrite lookup_insert_eq.
  - intros key Hne. by rewrite lookup_insert_ne.
Qed.

(** C10. In [update_history] the all-zero default pose is never used.  The
    outcome of the call is the same whatever pose stands in the place of the
    default.  Every entry of the log after the call is an entry of the log
    before it, or is filed under an id [i] of the two snapshots and the
    current frame index, and holds under ["pos-rot"] the six coordinates of
    the marker [d] that [i] has in the candidate snapshot, or else in the last
    state (with the scale 0.1), and under every other key what the payload
    configured for [i] holds.  And when the call returns, every id of the two
    snapshots has such an entry. *)
Theorem zero_default_pose_unreachable (st : tracker) (found : gmap Z marker) :
  let logged (d : marker) : json :=
    JObj [("x", JNum (vx (position d))); ("y", JNum (vy (position d)));
          ("z", JNum (vz (position d)));
          ("rx", JNum (vx (rotation d))); ("ry", JNum (vy (rotation d)));
          ("rz", JNum (vz (rotation d)));
          ("s", JNum (1 # 10))] in
  let read_from (i : Z) (d : marker) : Prop :=
    found !! i = Some d ∨ (found !! i = None ∧ last_states st !! i = Some d) in
  (∀ dflt, update_history_with dflt st found = update_history st found)
  ∧ (∀ ks k e,
       has_entry (design_history (update_history st found).1) ks k e →
       has_entry (design_history st) ks k e
       ∨ (∃ i d fallback,
            config_default (config st) = Some fallback
            ∧ ks = pretty i ∧ k = pretty (frame_count st)
            ∧ read_from i d
            ∧ e !! "pos-rot" = Some (logged d)
            ∧ ∀ key, key ≠ "pos-rot" →
                e !! key
                = default fallback (config_markers (config st) !! pretty i) !! key))
  ∧ (∀ i fallback,
       config_default (config st) = Some fallback →
       i ∈ all_ids found (last_states st) →
       ∃ d e, read_from i d
            ∧ has_entry (design_history (update_history st found).1)
                 (pretty i) (pretty (frame_count st)) e
            ∧ e !! "pos-rot" = Some (logged d)
            ∧ ∀ key, key ≠ "pos-rot" →
                e !! key
                = default fallback (config_markers (config st) !! pretty i) !! key).
Proof.
  intros logged read_from. split; [|split].
  - intros dflt. unfold update_history.
    destruct (config_default (config st)) as [fallback|] eqn:Hc.
    + rewrite !(update_history_ok _ _ _ fallback) by done. do 2 f_equal.
      apply foldl_ext_in. intros i dh Hi. apply elem_of_elements in Hi.
      unfold record_ok, entry_for.
      by rewrite (lookup_data_default_irrelevant dflt default_pose).
    + by rewrite !update_history_fail.
  - intros ks k e He. unfold update_history in He.
    apply update_history_only_adds in He
      as [He|(i & fallback & Hc & Hi & -> & -> & ->)]; [by left|].
    right. destruct (lookup_data_source default_pose _ _ _ Hi) as (d & Hs & Hd).
    exists i, d, fallback. unfold entry_for. rewrite Hd.
    destruct (history_entry_fields
                (default fallback (config_markers (config st) !! pretty i)) d)
      as [Hp Hk].
    done.
  - intros i fallback Hc Hi.
    destruct (lookup_data_source default_pose _ _ _ Hi) as (d & Hs & Hd).
    destruct (history_entry_fields
                (default fallback (config_markers (config st) !! pretty i)) d)
      as [Hp Hk].
    exists d, (history_entry
                 (default fallback (config_markers (config st) !! pretty i))
                 (marker_pose d)).
    split; [done|]. split; [|done]. rewrite <- Hd.
    apply (update_history_writes default_pose st found fallback i Hc Hi).
Qed.

(** Marker 7, gone from the candidate, is recorded at depth 1, where it was
    last seen, and not at the all-zero pose. *)
Lemma zero_default_pose_unreachable_witness :
  ∃ e, has_entry (design_history (update_history tracker_seen7 ∅).1)
         (pretty 7%Z) (pretty 1%nat) e
       ∧ e !! "pos-rot"
         = Some (JObj [("x", JNum 0); ("y", JNum 0); ("z", JNum 1);
                       ("rx", JNum 0); ("ry", JNum 0); ("rz", JNum 0);
                       ("s", JNum (1 # 10))]).
Proof.
  destruct (proj2 (proj2 (zero_default_pose_unreachable tracker_seen7 ∅)) 7%Z ∅)
    as (d & e & Hs & He & Hp & _); [done| |].
  { unfold all_ids. cbn [tracker_seen7 last_states]. set_solver. }
  destruct Hs as [Hs|[_ Hs]]; [by rewrite lookup_empty in Hs|].
  cbn [tracker_seen7 last_states] in Hs. rewrite lookup_singleton_eq in Hs.
  inversion Hs; subst d. exists e. split; [exact He|exact Hp].
Defined.

(** ** The references of the two gates in [main_loop] *)

(** C2 (as stated, refuted). With marker 7 last broadcast at depth 1 and
    now seen at depth 1.006, the candidate is suppressed by the history gate
    and passed by the broadcast gate; the iteration nevertheless replaces
    [last_states], the snapshot the history gate compares against, by this
    candidate, which never passed the history gate. *)
Lemma broadcast_pass_moves_history_reference :
  let st := tracker_seen7 in
  let r := ProcessingResult 0 {[ 7%Z := marker7_far ]} 0 in
  let st' := (@main_loop_body quiet_transport st r 0).1.1 in
  should_update_history (markers r) (last_states st) = false
  ∧ should_broadcast (markers r) (last_states st) = true
  ∧ last_states st' = markers r
  ∧ last_states st' ≠ last_states st.
Proof.
  cbv zeta.
  assert (Hh : should_update_history {[ 7%Z := marker7_far ]} {[ 7%Z := marker7_near ]} = false)
    by (vm_compute; reflexivity).
  assert (Hb : should_broadcast {[ 7%Z := marker7_far ]} {[ 7%Z := marker7_near ]} = true)
    by (vm_compute; reflexivity).
  split; [exact Hh|]. split; [exact Hb|].
  rewrite (@main_loop_body_last_states quiet_transport),
    (@main_loop_body_raised quiet_transport).
  unfold recording_step, tracker_seen7. cbn [markers last_states].
  rewrite Hh, Hb. cbn [snd]. split; [done|].
  intros Heq. apply (f_equal (λ m : gmap Z marker, m !! 7%Z)) in Heq.
  rewrite !lookup_singleton_eq in Heq. discriminate Heq.
Qed.

(** C2 (amended). Both gates compare the candidate against the one
    snapshot [last_states]: recording never alters it; an iteration of the
    loop that completes replaces it by the candidate exactly when the
    broadcast gate passes, and one that ends in an exception leaves it as it
    was; so over any run with a complete configuration it is the last
    snapshot that passed the broadcast gate.  Against this shared reference
    every candidate that passes the history gate passes the broadcast gate as
    well. *)
Theorem gates_share_broadcast_reference `{Transport} :
  (∀ st found, last_states (update_history st found).1 = last_states st)
  ∧ (∀ st r now,
      last_states (main_loop_body st r now).1.1
      = match (main_loop_body st r now).1.2 with
        | Some _ => last_states st
        | None => if should_broadcast (markers r) (last_states st) then markers r
                  else last_states st
        end)
  ∧ (∀ st results,
      is_Some (config_default (config st)) →
      last_states (main_loop_run st results)
      = last_passing should_broadcast (last_states st)
                     ((λ r, markers r.1) <$> results))
  ∧ (∀ found ref,
      should_update_history found ref = true → should_broadcast found ref = true).
Proof.
  split; [intros; apply update_history_last_states|].
  split; [intros; apply main_loop_body_last_states|].
  split; [intros; by apply main_loop_run_last_states|].
  intros found ref. unfold should_update_history, should_broadcast.
  apply gate_mono; done.
Qed.

(** Marker 7 moved by 2 cm passes the history gate, hence the broadcast gate. *)
Lemma gates_share_broadcast_reference_witness :
  should_update_history {[ 7%Z := marker7_jump ]} {[ 7%Z := marker7_near ]} = true
  ∧ should_broadcast {[ 7%Z := marker7_jump ]} {[ 7%Z := marker7_near ]} = true.
Proof.
  assert (Hh : should_update_history {[ 7%Z := marker7_jump ]}
                 {[ 7%Z := marker7_near ]} = true) by (vm_compute; reflexivity).
  split; [exact Hh|].
  exact (proj2 (proj2 (proj2 (@gates_share_broadcast_reference quiet_transport)))
           _ _ Hh).
Defined.

(** ** The predictive smoother of the [scrap_bin] variant *)

Section Smoother.
Variables (dt : Q) (last : gmap Z marker).

Lemma predict_one_other acc i (item : Z * marker) :
  item.1 ≠ i →
  (ScrapBin.predict_one dt last acc item).1 !! i = acc.1 !! i
  ∧ (ScrapBin.predict_one dt last acc item).2 !! i = acc.2 !! i.
Proof.
  destruct item as [j d]. simpl. intros Hne. unfold ScrapBin.predict_one.
  destruct (last !! j) as [ld|];
    [destruct (Qgtb dt 0 && Qltb dt (1 # 10))|]; simpl;
    rewrite ?lookup_insert_ne by done; done.
Qed.

Lemma predict_one_self acc i data :
  (ScrapBin.predict_one dt last acc (i, data)).1 !! i
  = Some (predicted_for dt last (acc.2 !! i) i data).
Proof.
  unfold ScrapBin.predict_one, predicted_for.
  destruct (last !! i) as [ld|];
    [destruct (Qgtb dt 0 && Qltb dt (1 # 10))|]; simpl;
    by rewrite lookup_insert_eq.
Qed.

Lemma predict_fold_other (l : list (Z * marker)) acc i :
  i ∉ l.*1 →
  (foldl (ScrapBin.predict_one dt last) acc l).1 !! i = acc.1 !! i
  ∧ (foldl (ScrapBin.predict_one dt last) acc l).2 !! i = acc.2 !! i.
Proof.
  revert acc. induction l as [|item l IH]; intros acc Hi; [done|].
  rewrite fmap_cons, not_elem_of_cons in Hi. destruct Hi as [Hne Hi].
  cbn [foldl]. destruct (IH (ScrapBin.predict_one dt last acc item) Hi) as [-> ->].
  apply predict_one_other. done.
Qed.

Lemma predict_fold_in (l : list (Z * marker)) acc i data :
  NoDup l.*1 → (i, data) ∈ l →
  (foldl (ScrapBin.predict_one dt last) acc l).1 !! i
  = Some (predicted_for dt last (acc.2 !! i) i data).
Proof.
  revert acc. induction l as [|item l IH]; intros acc Hnd Hin.
  - by apply elem_of_nil in Hin.
  - rewrite fmap_cons, NoDup_cons in Hnd. destruct Hnd as [Hni Hnd].
    cbn [foldl]. apply elem_of_cons in Hin as [<-|Hin].
    + destruct (predict_fold_other l (ScrapBin.predict_one dt last acc (i, data)) i Hni)
        as [-> _].
      apply predict_one_self.
    + assert (Hne : item.1 ≠ i).
      { intros <-. apply Hni. apply list_elem_of_fmap. by exists (item.1, data). }
      rewrite (IH _ Hnd Hin).
      by destruct (predict_one_other acc i item Hne) as [_ ->].
Qed.

End Smoother.

Lemma predict_marker_positions_lookup current_time last vel lut
    (found : gmap Z marker) i data :
  found !! i = Some data →
  (ScrapBin.predict_marker_positions current_time last vel lut found).1.1 !! i
  = Some (predicted_for (ScrapBin.elapsed current_time lut) last (vel !! i) i data).
Proof.
  intros Hf. unfold ScrapBin.predict_marker_positions. cbn [fst].
  rewrite (predict_fold_in _ _ _ _ i data); [done| |].
  - apply NoDup_fst_map_to_list.
  - by apply elem_of_map_to_list.
Qed.




(** * Part III: further properties of the code

    Properties of the functions above beyond the claims C1 to C10, numbered
    X1 to X25. *)

(** ** The queues *)

(** [queue.Queue] is first-in first-out and loses nothing but what it
    refuses: after any trace of operations the queue holds a tail of the
    initial items followed by the accepted ones, and the accepted items are
    offered items in their order. *)
Lemma queue_holds_tail_of_accepted {A} (ops : list (Queue.op A)) (q : Queue.t A) :
  ∃ (k : nat) (accepted : list A),
    sublist accepted (offered ops)
    ∧ Queue.items (Queue.run q ops) = drop k (Queue.items q ++ accepted).
Proof.
  revert q. induction ops as [|o ops IH]; intros q.
  - exists 0%nat, []. split; [done|]. simpl. by rewrite app_nil_r.
  - unfold Queue.run in *. cbn [foldl].
    destruct (IH (Queue.step q o)) as (k & acc & Hs & ->).
    unfold offered. cbn [omap list_omap]. fold (offered ops).
    destruct o as [x|]; unfold Queue.step.
    + unfold Queue.put_nowait.
      destruct ((0 <? Queue.maxsize q)%Z && (Queue.maxsize q <=? Queue.qsize q)%Z).
      * exists k, acc. split; [by apply sublist_cons|done].
      * exists k, (x :: acc). split; [by apply sublist_skip|].
        cbn [Queue.items]. by rewrite <- app_assoc.
    + unfold Queue.get_nowait. destruct (Queue.items q) as [|y rest] eqn:E.
      * exists k, acc. by rewrite E.
      * exists (S k), acc. done.
Qed.

(** X2. The capture step of [collage_tracker.py] is drop-oldest for every
    positive [maxsize]: the new item always ends up at the tail of the queue,
    at the cost of the oldest item exactly when the queue was full, and the
    bound is kept. *)
Theorem capture_publish_drops_oldest {A} (q : Queue.t A) (item : A) :
  bounded q →
  bounded (capture_publish q item)
  ∧ Queue.items (capture_publish q item)
    = (if Queue.full q then tail (Queue.items q) else Queue.items q) ++ [item].
Proof.
  intros [Hpos Hle]. unfold capture_publish.
  destruct (Queue.full q) eqn:Hfull.
  - unfold Queue.full in Hfull. apply andb_true_iff in Hfull as [_ Hge].
    apply Z.leb_le in Hge. unfold Queue.qsize in *.
    destruct q as [m l]. cbn [Queue.maxsize Queue.items] in *.
    destruct l as [|y rest]; [simpl in *; lia|].
    unfold Queue.get_nowait. cbn [Queue.items Queue.maxsize tail].
    assert (Hfree : Queue.full (Queue.mk m rest) = false).
    { unfold Queue.full, Queue.qsize. cbn [Queue.maxsize Queue.items].
      apply andb_false_iff. right. apply Z.leb_gt. cbn [length] in *. lia. }
    rewrite (put_nowait_free _ _ Hfree). cbn [Queue.maxsize Queue.items].
    split; [|done]. split; [done|].
    unfold Queue.qsize. cbn [Queue.maxsize Queue.items].
    rewrite length_app. cbn [length] in *. lia.
  - rewrite (put_nowait_free _ _ Hfull). cbn [Queue.items]. split; [|done].
    unfold Queue.full in Hfull. apply andb_false_iff in Hfull as [Hf|Hf].
    + apply Z.ltb_ge in Hf. lia.
    + apply Z.leb_gt in Hf. split; [done|].
      unfold Queue.qsize in *. cbn [Queue.maxsize Queue.items].
      rewrite length_app. cbn [length]. lia.
Qed.

(** A full queue of three loses its oldest item to the new one. *)
Lemma capture_publish_drops_oldest_witness :
  Queue.items (capture_publish (Queue.mk 3 [1; 2; 3]%nat) 4%nat) = [2; 3; 4]%nat.
Proof.
  refine (proj2 (capture_publish_drops_oldest (Queue.mk 3 [1; 2; 3]%nat) 4%nat _)).
  split; [reflexivity|]. unfold Queue.qsize. simpl. lia.
Defined.

(** X3. One iteration of the processing loop takes the oldest frame whenever
    there is one, also when the detector raises or the result is dropped; it
    leaves the queued results in place, and what it appends carries the
    capture timestamp of that frame and the time spent since. *)
Theorem process_iteration_consumes_oldest_frame `{Detector Frame Corners}
    (now : Q) (fq : Queue.t (Q * Frame)) (rq : Queue.t processing_result) :
  match Queue.items fq with
  | [] => process_iteration now fq rq = Ok (fq, rq)
  | (ts, frame) :: rest =>
      ∃ rq', process_iteration now fq rq = Ok (Queue.mk (Queue.maxsize fq) rest, rq')
        ∧ (rq' = rq
           ∨ (∃ found log, detect_markers frame = Ok (found, log)
                ∧ Queue.full rq = false
                ∧ Queue.items rq'
                  = Queue.items rq ++ [ProcessingResult ts found (now - ts)%Q]))
        ∧ (Queue.full rq = true → rq' = rq)
        ∧ (∀ e, detect_markers frame = Raise e → rq' = rq)
  end.
Proof.
  unfold process_iteration, Queue.get, Queue.get_nowait.
  destruct (Queue.items fq) as [|[ts frame] rest]; [done|].
  destruct (detect_markers frame) as [[found log]|e].
  - destruct (publish_result_spec rq (ProcessingResult ts found (now - ts)%Q))
      as (rq' & -> & _ & Hfull & Hfree).
    exists rq'. split; [done|]. split; [|split; [done|done]].
    destruct (Queue.full rq) eqn:E; [left; by apply Hfull|].
    right. exists found, log. split; [done|]. split; [done|]. by apply Hfree.
  - exists rq. split; [done|]. split; [by left|]. done.
Qed.

(** ** The change gate *)

Lemma gate_passes_spec_sym pt rt (a b : gmap Z marker) :
  gate_passes_spec pt rt a b → gate_passes_spec pt rt b a.
Proof.
  unfold gate_passes_spec.
  destruct (decide (size a = size b)) as [Hs|Hs]; [|intros _; left; congruence].
  intros [Hne|[(i & d & Ha & Hb)|(i & d & r & Ha & Hb & Hc)]]; [done| |].
  - right; left.
    destruct (decide (Forall (λ j, j ∈ dom a) (elements (dom b)))) as [Hall|Hex].
    + exfalso. assert (Hsub : dom b ⊆ dom a).
      { intros j Hj. rewrite Forall_forall in Hall. apply Hall.
        by apply elem_of_elements. }
      assert (Heq : dom b = dom a).
      { apply set_subseteq_size_eq; [done|]. rewrite !size_dom. lia. }
      assert (Hi : i ∈ dom a) by (apply elem_of_dom; eauto).
      rewrite <- Heq in Hi. apply elem_of_dom in Hi as [x Hx]. congruence.
    + apply not_Forall_Exists in Hex; [|apply _].
      apply Exists_exists in Hex as (j & Hj & Hnj). simpl in Hnj.
      apply elem_of_elements, elem_of_dom in Hj as [r Hr].
      apply not_elem_of_dom in Hnj. exists j, r. done.
  - right; right. exists i, r, d. split; [done|]. split; [done|].
    rewrite (Qabs_Qminus (vx (position r))), (Qabs_Qminus (vy (position r))),
      (Qabs_Qminus (vz (position r))), (Qabs_Qminus (vx (rotation r))),
      (Qabs_Qminus (vy (rotation r))), (Qabs_Qminus (vz (rotation r))).
    done.
Qed.

Lemma gate_sym (pt rt : Q) (a b : gmap Z marker) :
  gate pt rt a b = gate pt rt b a.
Proof.
  destruct (gate pt rt a b) eqn:Eab; destruct (gate pt rt b a) eqn:Eba; try done.
  - apply gate_correct, gate_passes_spec_sym, gate_correct in Eab. congruence.
  - apply gate_correct, gate_passes_spec_sym, gate_correct in Eba. congruence.
Qed.

Lemma gate_empty (pt rt : Q) (m : gmap Z marker) :
  gate pt rt m ∅ = bool_decide (m ≠ ∅)
  ∧ gate pt rt ∅ m = bool_decide (m ≠ ∅).
Proof.
  assert (H1 : gate pt rt m ∅ = bool_decide (m ≠ ∅)).
  { destruct (decide (m = ∅)) as [->|Hne].
    - rewrite bool_decide_eq_false_2 by (intros Hn; by apply Hn).
      unfold gate. by rewrite map_to_list_empty.
    - rewrite bool_decide_eq_true_2 by done. apply gate_correct. left.
      rewrite map_size_empty. by apply map_size_non_empty_iff. }
  split; [done|]. by rewrite gate_sym.
Qed.

(** X7. The gate is a symmetric test: exchanging the candidate and the
    reference never changes its decision. *)
Theorem gate_symmetric (pt rt : Q) (a b : gmap Z marker) :
  gate pt rt a b = gate pt rt b a
  ∧ should_update_history a b = should_update_history b a
  ∧ should_broadcast a b = should_broadcast b a.
Proof. split; [|split]; apply gate_sym. Qed.

(** X8. With nothing visible on one side the gate passes exactly when
    something is visible on the other: the first appearance and the complete
    disappearance of markers always pass, and nothing against nothing is
    suppressed, whatever the thresholds. *)
Theorem gate_against_empty (pt rt : Q) (m : gmap Z marker) :
  gate pt rt m ∅ = bool_decide (m ≠ ∅)
  ∧ gate pt rt ∅ m = bool_decide (m ≠ ∅).
Proof. apply gate_empty. Qed.

(** ** Detection *)

Lemma detect_loop_entries `{Detector Frame Corners} (dets : list (Z * Corners))
    found log i m :
  (detect_loop dets found log).1 !! i = Some m →
  found !! i = Some m
  ∨ ∃ c pos rot, (i, c) ∈ dets ∧ solve_pose c = Ok (Some (pos, rot))
                 ∧ m = Marker i pos rot.
Proof.
  revert found log. induction dets as [|[j c] dets IH]; intros found log Hm.
  - by left.
  - cbn [detect_loop] in Hm.
    destruct (solve_pose c) as [[[pos rot]|]|e] eqn:E;
      apply IH in Hm as [Hm|(c' & p & r & Hin & Hc & ->)];
      try (right; exists c', p, r; split; [by right|done]);
      try (by left).
    destruct (decide (j = i)) as [->|Hne].
    + rewrite lookup_insert_eq in Hm. inversion Hm; subst m.
      right. exists c, pos, rot. split; [left|done].
    + rewrite lookup_insert_ne in Hm by done. by left.
Qed.

(** X5. What [detect_markers] of [collage_tracker.py] returns holds nothing but
    markers of the frame whose pose was solved: every entry is filed under
    its own id and carries the position and rotation solved for one of the
    detections of that id. *)
Theorem detect_markers_reports_only_solved_markers `{Detector Frame Corners}
    (frame : Frame) (found : gmap Z marker) (log : list Z) (i : Z) (m : marker) :
  detect_markers frame = Ok (found, log) →
  found !! i = Some m →
  id m = i
  ∧ ∃ dets c, detect_frame frame = Ok (Some dets) ∧ (i, c) ∈ dets
              ∧ solve_pose c = Ok (Some (position m, rotation m)).
Proof.
  unfold detect_markers. intros Hd Hm.
  destruct (detect_frame frame) as [[dets|]|e]; [| |done].
  - injection Hd as Hd.
    assert (Hf : found = (detect_loop dets ∅ []).1) by by rewrite Hd.
    rewrite Hf in Hm.
    apply detect_loop_entries in Hm as [Hm|(c & pos & rot & Hin & Hc & ->)];
      [by rewrite lookup_empty in Hm|].
    split; [done|]. by exists dets, c.
  - injection Hd as <- _. by rewrite lookup_empty in Hm.
Qed.

(** On the frame where marker 1 fails, marker 2 is reported under id 2
    with the pose solved for it. *)
Lemma detect_markers_reports_only_solved_markers_witness :
  ∃ dets c, @detect_frame _ _ flaky_detector () = Ok (Some dets)
            ∧ (2%Z, c) ∈ dets
            ∧ @solve_pose _ _ flaky_detector c = Ok (Some (Vec3 0 0 1, Vec3 0 0 0)).
Proof.
  exact (proj2 (@detect_markers_reports_only_solved_markers _ _ flaky_detector ()
                  {[ 2%Z := Marker 2 (Vec3 0 0 1) (Vec3 0 0 0) ]} [1%Z] 2%Z
                  (Marker 2 (Vec3 0 0 1) (Vec3 0 0 0)) eq_refl
                  (lookup_singleton_eq _ _))).
Defined.

(** On that frame the map returned is the one of marker 2 alone, and
    marker 1 is logged. *)
Lemma detect_markers_isolates_failures_witness :
  ∃ found log, @detect_markers _ _ flaky_detector () = Ok (found, log)
               ∧ log = [1%Z] ∧ is_Some (found !! 2%Z).
Proof.
  destruct (@detect_markers_isolates_failures _ _ flaky_detector ()
              [(1%Z, 0%nat); (2%Z, 1%nat)] eq_refl)
    as (found & log & Hd & _ & Hl & Hin).
  exists found, log. split; [exact Hd|]. split; [exact Hl|].
  apply (Hin 2%Z 1%nat (Vec3 0 0 1) (Vec3 0 0 0)); [|reflexivity].
  right. left.
Defined.

(** ** The dispatcher among the connection handlers *)

Lemma interfere_registry (events : list registry_event) (cs : gset nat) (b : bool) :
  (foldl (λ acc ev,
            let cs' := registry_step acc.1 ev in
            (cs', acc.2 || negb (bool_decide (cs' = acc.1))))
         (cs, b) events).1
  = foldl registry_step cs events.
Proof.
  revert cs b. induction events as [|ev events IH]; intros cs b; [done|].
  cbn [foldl fst snd]. apply IH.
Qed.

Lemma registry_step_absent (cs : gset nat) (ev : registry_event) (c : nat) :
  c ∉ cs → ev ≠ Connects c → c ∉ registry_step cs ev.
Proof.
  intros Hc Hev. destruct ev as [w|w]; cbn [registry_step].
  - unfold handle_client_enter, set_add.
    assert (w ≠ c) by (intros ->; done). set_solver.
  - unfold handle_client_finally, set_remove.
    destruct (decide (w ∈ cs)); [set_solver|done].
Qed.

Lemma interfere_absent (events : list registry_event) (cs : gset nat) (c : nat) :
  c ∉ cs → Connects c ∉ events → c ∉ (interfere cs events).1.
Proof.
  unfold interfere. rewrite interfere_registry.
  revert cs. induction events as [|ev events IH]; intros cs Hc Hev; [done|].
  cbn [foldl]. apply not_elem_of_cons in Hev as [Hne Hev].
  apply IH; [|done]. apply registry_step_absent; [done|]. by intros ->.
Qed.

Section DispatchMore.
Context `{T : Transport}.

(** X14. A cycle of [broadcast] over a registry that the set yields in the
    order [order].  If no connection handler runs while its deliveries are
    awaited, the cycle returns: the consumers kept are those of the registry
    whose delivery completed, and the deliveries are the one serialized
    message to exactly those consumers, in the order of the set and once
    each.  If the registry has another size when the dispatcher resumes
    from the delivery to a consumer [c], no handler having run before, the
    cycle ends there with [RuntimeError]: the consumers up to [c] have been
    tried, those after [c] get nothing, and no failing consumer is discarded,
    the registry being what the handlers left. *)
Theorem broadcast_keeps_reachable_consumers (cs : gset nat) (data : update)
    (order : list nat) (during : nat → list registry_event) :
  order ≡ₚ elements cs →
  ((∀ c, c ∈ cs → during c = []) →
   ∃ kept sent,
     broadcast_among cs data order during = Returns kept sent
     ∧ (∀ c, c ∈ kept ↔ c ∈ cs ∧ send c (dumps data) = Ok ())
     ∧ sent = ((λ c, (c, dumps data))
               <$> filter (λ c, delivers (dumps data) c = true) order)
     ∧ NoDup sent)
  ∧ (∀ visited c rest,
       order = visited ++ c :: rest →
       (∀ c', c' ∈ visited → during c' = []) →
       size (interfere cs (during c)).1 ≠ size cs →
       broadcast_among cs data order during
       = Raises RuntimeError (interfere cs (during c)).1
           ((λ c', (c', dumps data))
            <$> filter (λ c', delivers (dumps data) c' = true) (visited ++ [c]))).
Proof.
  intros Hperm.
  assert (Hin : ∀ c, c ∈ order ↔ c ∈ cs).
  { intros c. by rewrite Hperm, elem_of_elements. }
  split.
  - intros Hq. unfold broadcast_among. destruct (decide (cs = ∅)) as [->|Hne].
    + assert (order = []) as ->.
      { apply Permutation_nil_r. by rewrite Hperm, elements_empty. }
      exists ∅, []. split; [done|]. split; [set_solver|]. split; [done|constructor].
    + rewrite live_loop_undisturbed by (intros c Hc; apply Hq; by apply Hin).
      cbv zeta. rewrite send_loop_registry, send_loop_disconnected,
        send_loop_delivered. cbn [registry disconnected delivered app].
      rewrite foldl_set_discard. eexists _, _. split; [reflexivity|].
      split; [|split; [reflexivity|]].
      * intros c. rewrite elem_of_difference, elem_of_list_to_set,
          list_elem_of_filter, Hin, <- delivers_true. split.
        -- intros [Hc Hn]. split; [done|].
           destruct (delivers (dumps data) c); [done|]. exfalso. by apply Hn.
        -- intros [Hc Hs]. split; [done|]. intros [Hn _]. congruence.
      * apply NoDup_fmap_2; [by intros c1 c2 [= ->]|].
        apply NoDup_filter. rewrite Hperm. apply NoDup_elements.
  - intros visited c rest -> Hq Hsz. unfold broadcast_among.
    destruct (decide (cs = ∅)) as [->|Hne].
    + exfalso. rewrite elements_empty in Hperm.
      apply Permutation_nil_r in Hperm. by destruct visited.
    + by rewrite (live_loop_size_changed _ _ _ visited c rest).
Qed.

(** What the copy-iterating loop delivers does not depend on the registry. *)
Lemma send_among_delivered message during (l : list nat) (reg : gset nat)
    (sent : list (nat * string)) :
  (foldl (Simplified.send_among message during) (reg, sent) l).2
  = sent ++ ((λ c, (c, message)) <$> filter (λ c, delivers message c = true) l).
Proof.
  revert reg sent. induction l as [|c l IH]; intros reg sent.
  - simpl. by rewrite app_nil_r.
  - cbn [foldl]. unfold Simplified.send_among at 2. rewrite filter_cons.
    destruct (send c message) as [[]|e] eqn:E; cbn [fst snd]; rewrite IH.
    + rewrite decide_True by (unfold delivers; by rewrite E).
      by rewrite fmap_cons, <- app_assoc.
    + by rewrite decide_False by (unfold delivers; by rewrite E).
Qed.

Lemma send_among_absent message during (l : list nat) (reg : gset nat)
    (sent : list (nat * string)) (c : nat) :
  (∀ c', Connects c ∉ during c') →
  c ∉ reg →
  c ∉ (foldl (Simplified.send_among message during) (reg, sent) l).1.
Proof.
  intros Hev. revert reg sent. induction l as [|c' l IH]; intros reg sent Hc; [done|].
  cbn [foldl]. unfold Simplified.send_among at 2. cbn [fst snd].
  pose proof (interfere_absent (during c') reg c Hc (Hev c')) as Hi.
  destruct (send c' message); apply IH; [done|].
  unfold set_discard. set_solver.
Qed.

Lemma send_among_drops message during (l : list nat) (reg : gset nat)
    (sent : list (nat * string)) (c : nat) :
  (∀ c', Connects c ∉ during c') →
  c ∈ l → delivers message c = false →
  c ∉ (foldl (Simplified.send_among message during) (reg, sent) l).1.
Proof.
  intros Hev. revert reg sent. induction l as [|c' l IH]; intros reg sent Hin Hd.
  - by apply elem_of_nil in Hin.
  - cbn [foldl]. destruct (decide (c' = c)) as [->|Hne].
    + destruct (Simplified.send_among message during (reg, sent) c)
        as [reg' sent'] eqn:E.
      apply send_among_absent; [done|].
      unfold Simplified.send_among, delivers in *.
      destruct (send c message); [done|].
      inversion E. unfold set_discard. set_solver.
    + destruct (Simplified.send_among message during (reg, sent) c')
        as [reg' sent'].
      apply IH; [|done]. apply elem_of_cons in Hin as [->|Hin]; done.
Qed.

(** X15. The dispatcher of [src/design_history_tracker.py] and of
    [scrap_bin/aruco_tracker.py], which iterates over a copy of the registry,
    whatever the connection handlers do to the registry while its deliveries
    are awaited: it tries every consumer of the copy, so the deliveries are
    the one serialized message to the consumers of the starting registry
    whose delivery completes, in the order of the copy; and a consumer of the
    starting registry whose delivery fails is not in the registry afterwards,
    unless it was connected again during the cycle. *)
Theorem simplified_broadcast_serves_every_consumer (cs : gset nat) (data : update)
    (order : list nat) (during : nat → list registry_event) :
  order ≡ₚ elements cs →
  (Simplified.broadcast_among cs data order during).2
  = ((λ c, (c, dumps data))
     <$> filter (λ c, delivers (dumps data) c = true) order)
  ∧ (∀ c, c ∈ cs → send c (dumps data) = Ok () →
       (c, dumps data) ∈ (Simplified.broadcast_among cs data order during).2)
  ∧ (∀ c e, c ∈ cs → send c (dumps data) = Raise e →
       (∀ c', Connects c ∉ during c') →
       c ∉ (Simplified.broadcast_among cs data order during).1).
Proof.
  intros Hperm.
  assert (Hin : ∀ c, c ∈ order ↔ c ∈ cs).
  { intros c. by rewrite Hperm, elem_of_elements. }
  assert (Hsent : (Simplified.broadcast_among cs data order during).2
                  = ((λ c, (c, dumps data))
                     <$> filter (λ c, delivers (dumps data) c = true) order)).
  { unfold Simplified.broadcast_among. destruct (decide (cs = ∅)) as [->|Hne].
    - assert (order = []) as ->; [|done].
      apply Permutation_nil_r. by rewrite Hperm, elements_empty.
    - by rewrite send_among_delivered. }
  split; [done|]. split.
  - intros c Hc Hs. rewrite Hsent. apply list_elem_of_fmap. exists c.
    split; [done|]. apply list_elem_of_filter. split; [|by apply Hin].
    by apply delivers_true.
  - intros c e Hc Hs Hev. unfold Simplified.broadcast_among.
    destruct (decide (cs = ∅)) as [->|Hne]; [set_solver|].
    apply send_among_drops; [done|by apply Hin|].
    unfold delivers. by rewrite Hs.
Qed.

End DispatchMore.

(** Consumers 1, 2, 3 with the handler of the failing consumer 2 closing
    during its delivery: [broadcast] raises after consumer 1 was served. *)
Lemma broadcast_keeps_reachable_consumers_witness :
  @broadcast_among lossy_transport {[1; 2; 3]} sample_update [1; 2; 3]
    consumer2_closes
  = Raises RuntimeError {[1; 3]} [(1, "m")].
Proof.
  assert (Hperm : [1; 2; 3] ≡ₚ elements ({[1; 2; 3]} : gset nat)).
  { apply NoDup_Permutation; [by repeat constructor; set_solver|apply NoDup_elements|].
    intros x. rewrite elem_of_elements. set_solver. }
  destruct (@broadcast_keeps_reachable_consumers lossy_transport {[1; 2; 3]}
              sample_update [1; 2; 3] consumer2_closes Hperm) as [_ Hr].
  rewrite (Hr [1] 2 [3]).
  - vm_compute. reflexivity.
  - reflexivity.
  - intros c' Hc'. apply list_elem_of_singleton in Hc' as ->. reflexivity.
  - vm_compute. lia.
Defined.

(** The same cycle in the copy-iterating dispatcher serves 1 and 3. *)
Lemma simplified_broadcast_serves_every_consumer_witness :
  (3, "m") ∈ (@Simplified.broadcast_among lossy_transport {[1; 2; 3]}
                sample_update [1; 2; 3] consumer2_closes).2.
Proof.
  assert (Hperm : [1; 2; 3] ≡ₚ elements ({[1; 2; 3]} : gset nat)).
  { apply NoDup_Permutation; [by repeat constructor; set_solver|apply NoDup_elements|].
    intros x. rewrite elem_of_elements. set_solver. }
  destruct (@simplified_broadcast_serves_every_consumer lossy_transport {[1; 2; 3]}
              sample_update [1; 2; 3] consumer2_closes Hperm) as (_ & Hs & _).
  apply (Hs 3); [set_solver|reflexivity].
Defined.

(** ** Recording and the orchestrator loop *)

Lemma gate_suppressed_mono found ref :
  should_broadcast found ref = false → should_update_history found ref = false.
Proof.
  intros Hb. destruct (should_update_history found ref) eqn:Hh; [|done].
  unfold should_update_history, should_broadcast in *.
  apply (gate_mono _ _ (5 # 1000) (1 # 2)) in Hh; [congruence|done|done].
Qed.

Lemma main_loop_body_suppressed `{Transport}
    (st : tracker) (r : processing_result) (now : Q) :
  should_broadcast (markers r) (last_states st) = false →
  main_loop_body st r now = ((st, None), []).
Proof.
  intros Hb. unfold main_loop_body.
  by rewrite (gate_suppressed_mono _ _ Hb), Hb.
Qed.





(** ** [load_config] *)

(** X10. [load_config] leaves a configuration without default payload exactly
    for a file that parses, has ['markers'] and has no ['default']; in every
    other case in which it does not take the file as it is, it installs the
    built-in configuration.  Hence a recording raises exactly for such a file
    when there is an id to record, and never after a fallback. *)
Theorem load_config_missing_default (read : result config_file) :
  (config_default (load_config read) = None
     ↔ ∃ file per_marker, read = Ok file ∧ file_markers file = Some per_marker
                          ∧ file_default file = None)
  ∧ (load_config read = fallback_config
     ∨ ∃ file per_marker, read = Ok file ∧ file_markers file = Some per_marker
                          ∧ load_config read = MkConfig per_marker (file_default file))
  ∧ (∀ st found, config st = load_config read →
       ((update_history st found).2 = Some KeyError
          ↔ (∃ file per_marker, read = Ok file ∧ file_markers file = Some per_marker
                                ∧ file_default file = None)
            ∧ all_ids found (last_states st) ≠ ∅)).
Proof.
  assert (H1 : config_default (load_config read) = None
     ↔ ∃ file per_marker, read = Ok file ∧ file_markers file = Some per_marker
                          ∧ file_default file = None).
  { unfold load_config. destruct read as [file|e].
    - destruct (file_markers file) as [pm|] eqn:Em; cbn [config_default].
      + split; [intros Hd; by exists file, pm|].
        by intros (f & pm' & [= <-] & _ & Hd).
      + split; [done|]. intros (f & pm' & [= <-] & Hm & _). congruence.
    - cbn [fallback_config config_default]. split; [done|].
      by intros (f & pm' & ? & _). }
  split; [done|]. split.
  - unfold load_config. destruct read as [file|e]; [|by left].
    destruct (file_markers file) as [pm|] eqn:Em; [|by left].
    right. by exists file, pm.
  - intros st found Hcfg. unfold update_history.
    rewrite update_history_raised, Hcfg.
    destruct (config_default (load_config read)) as [fb|] eqn:Hd.
    + split; [done|]. intros [Hf _]. apply H1 in Hf. congruence.
    + destruct (decide (all_ids found (last_states st) = ∅)).
      * split; [done|]. by intros [_ ?].
      * split; [|done]. intros _. split; [by apply H1|done].
Qed.

(** ** Recording in [src/design_history_tracker.py] *)

Lemma simplified_update_history_returns (st st' : tracker) (found : gmap Z marker) :
  Simplified.update_history st found = (st', None) →
  last_states st' = found ∧ frame_count st' = S (frame_count st)
  ∧ config st' = config st.
Proof.
  unfold Simplified.update_history.
  destruct (record_loop _ _ _ _ _ _ _) as [dh [e|]]; [done|].
  by intros [= <-].
Qed.

Lemma simplified_update_history_ok (st : tracker) (found : gmap Z marker) :
  is_Some (config_default (config st)) →
  (Simplified.update_history st found).2 = None.
Proof.
  intros [fb Hc]. unfold Simplified.update_history.
  by rewrite (record_loop_ok _ _ fb).
Qed.

(** X17. In [SimplifiedTracker] the history gate has a reference of its own: a
    recording that returns stores the recorded snapshot as [last_states], so
    the same snapshot is suppressed right afterwards, and over any run under a
    configuration with a default payload [last_states] is the last snapshot
    that passed the history gate. *)
Theorem simplified_reference_is_last_recorded (st : tracker)
    (snapshots : list (gmap Z marker)) :
  (∀ found st', Simplified.update_history st found = (st', None) →
                last_states st' = found)
  ∧ (∀ found st', Simplified.record_if_changed st found = (st', None) →
                  Simplified.should_update_history found (last_states st') = false)
  ∧ (is_Some (config_default (config st)) →
     last_states (Simplified.record_run st snapshots)
     = last_passing Simplified.should_update_history (last_states st) snapshots).
Proof.
  split; [|split].
  - intros found st' Hu. by apply simplified_update_history_returns in Hu as [? _].
  - intros found st'. unfold Simplified.record_if_changed.
    destruct (Simplified.should_update_history found (last_states st)) eqn:Hg.
    + intros Hu. apply simplified_update_history_returns in Hu as [-> _].
      unfold Simplified.should_update_history. by apply gate_identical.
    + by intros [= <-].
  - revert st. induction snapshots as [|found rest IH]; intros st Hc; [done|].
    cbn [Simplified.record_run]. unfold last_passing in *. cbn [foldl].
    unfold Simplified.record_if_changed.
    destruct (Simplified.should_update_history found (last_states st)) eqn:Hg.
    + pose proof (simplified_update_history_ok st found Hc) as Hok.
      destruct (Simplified.update_history st found) as [st' [e|]] eqn:Hu; [done|].
      apply simplified_update_history_returns in Hu as (Hl & _ & Hcfg).
      rewrite IH by by rewrite Hcfg. by rewrite Hl.
    + by apply IH.
Qed.

(** Marker 7 seen 6 mm and then 20 mm away from where it was recorded:
    the second snapshot is the one recorded. *)
Lemma simplified_reference_is_last_recorded_witness :
  last_states (Simplified.record_run tracker_seen7
                 [{[ 7%Z := marker7_far ]}; {[ 7%Z := marker7_jump ]}])
  = {[ 7%Z := marker7_jump ]}.
Proof.
  rewrite (proj2 (proj2 (simplified_reference_is_last_recorded tracker_seen7
                           [{[ 7%Z := marker7_far ]}; {[ 7%Z := marker7_jump ]}])))
    by (by eexists).
  vm_compute. reflexivity.
Defined.

(** ** Runs that collect one output per step *)

Lemma foldl_collect {S A B} (step : S → A → S * B) (l : list A) (s : S)
    (acc : list B) :
  foldl (λ a x, let '(s', r) := step a.1 x in (s', a.2 ++ [r])) (s, acc) l
  = ((foldl (λ a x, let '(s', r) := step a.1 x in (s', a.2 ++ [r])) (s, []) l).1,
     acc ++ (foldl (λ a x, let '(s', r) := step a.1 x in (s', a.2 ++ [r]))
                   (s, []) l).2).
Proof.
  revert s acc. induction l as [|x l IH]; intros s acc.
  - simpl. by rewrite app_nil_r.
  - cbn [foldl fst snd]. destruct (step s x) as [s' r].
    rewrite (IH s' (acc ++ [r])), (IH s' ([] ++ [r])). cbn [fst snd].
    by rewrite <- app_assoc.
Qed.

Lemma foldl_collect_cons {S A B} (step : S → A → S * B) (x : A) (l : list A) (s : S) :
  foldl (λ a x, let '(s', r) := step a.1 x in (s', a.2 ++ [r])) (s, []) (x :: l)
  = ((foldl (λ a x, let '(s', r) := step a.1 x in (s', a.2 ++ [r]))
            ((step s x).1, []) l).1,
     (step s x).2
     :: (foldl (λ a x, let '(s', r) := step a.1 x in (s', a.2 ++ [r]))
               ((step s x).1, []) l).2).
Proof.
  cbn [foldl fst snd]. destruct (step s x) as [s' r]. cbn [fst snd].
  by rewrite foldl_collect.
Qed.

Lemma foldl_collect_snoc {S A B} (step : S → A → S * B) (x : A) (l : list A) (s : S) :
  foldl (λ a x, let '(s', r) := step a.1 x in (s', a.2 ++ [r])) (s, []) (l ++ [x])
  = ((step (foldl (λ a x, let '(s', r) := step a.1 x in (s', a.2 ++ [r]))
                  (s, []) l).1 x).1,
     (foldl (λ a x, let '(s', r) := step a.1 x in (s', a.2 ++ [r])) (s, []) l).2
     ++ [(step (foldl (λ a x, let '(s', r) := step a.1 x in (s', a.2 ++ [r]))
                      (s, []) l).1 x).2]).
Proof.
  rewrite foldl_app. cbn [foldl].
  by destruct (step _ x) as [s' r].
Qed.

(** ** Motion-adaptive frame skipping *)

Section Skipping.
Context `{V : ScrapBin.Vision Frame Gray}.

Lemma skip_run_cons (s : ScrapBin.skipper Gray) (frame : Frame) (frames : list Frame) :
  ScrapBin.skip_run s (frame :: frames)
  = ((ScrapBin.skip_run (ScrapBin.skip_decision s frame).1 frames).1,
     (ScrapBin.skip_decision s frame).2
     :: (ScrapBin.skip_run (ScrapBin.skip_decision s frame).1 frames).2).
Proof. apply (foldl_collect_cons ScrapBin.skip_decision). Qed.

Lemma skip_run_snoc (s : ScrapBin.skipper Gray) (frame : Frame) (frames : list Frame) :
  ScrapBin.skip_run s (frames ++ [frame])
  = ((ScrapBin.skip_decision (ScrapBin.skip_run s frames).1 frame).1,
     (ScrapBin.skip_run s frames).2
     ++ [(ScrapBin.skip_decision (ScrapBin.skip_run s frames).1 frame).2]).
Proof. apply (foldl_collect_snoc ScrapBin.skip_decision). Qed.

(** A skipped frame raises the counter, to at most the cap. *)
Lemma skip_decision_skipped (s : ScrapBin.skipper Gray) (frame : Frame) :
  (ScrapBin.skip_decision s frame).2 = false →
  ScrapBin.frame_skip_counter (ScrapBin.skip_decision s frame).1
  = S (ScrapBin.frame_skip_counter s)
  ∧ (S (ScrapBin.frame_skip_counter s) ≤ 2)%nat.
Proof.
  unfold ScrapBin.skip_decision.
  destruct (1 <? S (ScrapBin.seen s))%nat; [|done].
  destruct (ScrapBin.last_gray s) as [g|]; [|done].
  destruct (ScrapBin.motion_threshold <? _)%Z; [|done].
  cbn [fst snd ScrapBin.frame_skip_counter]. intros Hd.
  apply negb_false_iff, Nat.leb_le in Hd. done.
Qed.

(** X18. At no point of a run have more than two frames in a row just been
    skipped. *)
Theorem at_most_two_frames_skipped_in_a_row (frames : list Frame) :
  (trailing_skips (ScrapBin.skip_run ScrapBin.skipper_init frames).2 ≤ 2)%nat.
Proof.
  cut (trailing_skips (ScrapBin.skip_run ScrapBin.skipper_init frames).2
       ≤ ScrapBin.frame_skip_counter (ScrapBin.skip_run ScrapBin.skipper_init frames).1
       ∧ trailing_skips (ScrapBin.skip_run ScrapBin.skipper_init frames).2 ≤ 2)%nat.
  { by intros [_ ?]. }
  induction frames as [|frame frames IH] using rev_ind.
  - simpl. unfold trailing_skips. simpl. lia.
  - rewrite skip_run_snoc. cbn [fst snd]. unfold trailing_skips in *.
    rewrite reverse_snoc.
    destruct (ScrapBin.skip_decision _ frame).2 eqn:Hd; cbn [leading_skips]; [lia|].
    apply skip_decision_skipped in Hd as [-> Hle]. lia.
Qed.

(** X19. The counter is reset by a quiet frame only, not when the cap is
    reached: during sustained motion the frames skipped are the first ones,
    as many as the counter is short of two, and every later frame of the burst
    is forwarded. *)
Theorem burst_skips_first_frames_only (s : ScrapBin.skipper Gray)
    (previous : Gray) (frames : list Frame) :
  (1 ≤ ScrapBin.seen s)%nat →
  ScrapBin.last_gray s = Some previous →
  sustained_motion previous frames →
  (ScrapBin.skip_run s frames).2
  = replicate (min (length frames) (2 - ScrapBin.frame_skip_counter s)) false
    ++ replicate (length frames - (2 - ScrapBin.frame_skip_counter s)) true.
Proof.
  revert s previous. induction frames as [|frame frames IH];
    intros s previous Hseen Hgray Hm; [done|].
  destruct Hm as [Hmotion Hrest]. rewrite skip_run_cons.
  assert (Hstep : ScrapBin.skip_decision s frame
                  = (ScrapBin.Skipper (S (ScrapBin.seen s))
                       (Some (ScrapBin.cvtColor frame))
                       (S (ScrapBin.frame_skip_counter s)),
                     negb (S (ScrapBin.frame_skip_counter s) <=? 2)%nat)).
  { unfold ScrapBin.skip_decision. rewrite Hgray.
    replace (1 <? S (ScrapBin.seen s))%nat with true
      by (symmetry; apply Nat.ltb_lt; lia).
    apply Z.ltb_lt in Hmotion. by rewrite Hmotion. }
  rewrite Hstep. cbn [fst snd].
  rewrite (IH _ (ScrapBin.cvtColor frame)); [|simpl; lia|done|done].
  cbn [ScrapBin.frame_skip_counter length].
  destruct (S (ScrapBin.frame_skip_counter s) <=? 2)%nat eqn:Hc; cbn [negb].
  - apply Nat.leb_le in Hc.
    replace (2 - ScrapBin.frame_skip_counter s)%nat
      with (S (2 - S (ScrapBin.frame_skip_counter s))) by lia.
    rewrite <- Nat.succ_min_distr. cbn [replicate app]. do 2 f_equal; try lia.
  - apply Nat.leb_gt in Hc.
    replace (2 - ScrapBin.frame_skip_counter s)%nat with 0%nat by lia.
    replace (2 - S (ScrapBin.frame_skip_counter s))%nat with 0%nat by lia.
    rewrite !Nat.min_0_r, !Nat.sub_0_r. done.
Qed.

End Skipping.

(** Five frames of sustained motion after two quiet ones: two skipped,
    three forwarded. *)
Lemma burst_skips_first_frames_only_witness :
  (@ScrapBin.skip_run _ _ distance_vision (ScrapBin.Skipper 2 (Some 0%Z) 0)
     [5000; 10000; 15000; 20000; 25000]%Z).2
  = [false; false; true; true; true].
Proof.
  refine (@burst_skips_first_frames_only _ _ distance_vision
            (ScrapBin.Skipper 2 (Some 0%Z) 0) 0%Z
            [5000; 10000; 15000; 20000; 25000]%Z _ eq_refl _).
  - simpl. lia.
  - simpl. unfold ScrapBin.motion_threshold. repeat split; lia.
Defined.

(** ** More on the predictive smoother *)

Section SmootherMore.
Variables (dt : Q) (last : gmap Z marker).

Lemma predict_one_self_velocity acc i data :
  (ScrapBin.predict_one dt last acc (i, data)).2 !! i
  = velocity_for dt last (acc.2 !! i) i data.
Proof.
  unfold ScrapBin.predict_one, velocity_for.
  destruct (last !! i) as [ld|];
    [destruct (Qgtb dt 0 && Qltb dt (1 # 10))|]; simpl;
    by rewrite ?lookup_insert_eq.
Qed.

Lemma predict_fold_velocity_in (l : list (Z * marker)) acc i data :
  NoDup l.*1 → (i, data) ∈ l →
  (foldl (ScrapBin.predict_one dt last) acc l).2 !! i
  = velocity_for dt last (acc.2 !! i) i data.
Proof.
  revert acc. induction l as [|item l IH]; intros acc Hnd Hin.
  - by apply elem_of_nil in Hin.
  - rewrite fmap_cons, NoDup_cons in Hnd. destruct Hnd as [Hni Hnd].
    cbn [foldl]. apply elem_of_cons in Hin as [<-|Hin].
    + destruct (predict_fold_other dt last l
                  (ScrapBin.predict_one dt last acc (i, data)) i Hni) as [_ ->].
      apply predict_one_self_velocity.
    + assert (Hne : item.1 ≠ i).
      { intros <-. apply Hni. apply list_elem_of_fmap. by exists (item.1, data). }
      rewrite (IH _ Hnd Hin).
      by destruct (predict_one_other dt last acc i item Hne) as [_ ->].
Qed.

End SmootherMore.

(** X20. [predict_marker_positions] passes on exactly the markers it is given:
    the predicted snapshot has the ids of the raw snapshot, and every marker
    keeps its id and its rotation; only positions are extrapolated. *)
Theorem prediction_keeps_markers (current_time : Q) (last : gmap Z marker)
    (marker_velocities : gmap Z vec3) (last_update_time : option Q)
    (found : gmap Z marker) (i : Z) :
  match found !! i with
  | None =>
      (ScrapBin.predict_marker_positions current_time last marker_velocities
         last_update_time found).1.1 !! i = None
  | Some data =>
      ∃ p, (ScrapBin.predict_marker_positions current_time last marker_velocities
              last_update_time found).1.1 !! i = Some p
           ∧ id p = id data ∧ rotation p = rotation data
  end.
Proof.
  destruct (found !! i) as [data|] eqn:Hf.
  - rewrite (predict_marker_positions_lookup _ _ _ _ _ _ _ Hf).
    eexists. split; [done|]. unfold predicted_for.
    destruct (last !! i); [destruct (_ && _)|]; done.
  - unfold ScrapBin.predict_marker_positions. cbn [fst].
    destruct (predict_fold_other (ScrapBin.elapsed current_time last_update_time)
                last (map_to_list found) (∅, marker_velocities) i) as [-> _].
    + intros Hin. apply list_elem_of_fmap in Hin as ([j d] & -> & Hin).
      apply elem_of_map_to_list in Hin. simpl in Hf. congruence.
    + apply lookup_empty.
Qed.

Lemma predict_velocity_lookup (current_time : Q) (last : gmap Z marker)
    (marker_velocities : gmap Z vec3) (last_update_time : option Q)
    (found : gmap Z marker) (i : Z) :
  (ScrapBin.predict_marker_positions current_time last marker_velocities
     last_update_time found).1.2 !! i
  = match found !! i with
    | Some data =>
        velocity_for (ScrapBin.elapsed current_time last_update_time) last
                     (marker_velocities !! i) i data
    | None => marker_velocities !! i
    end.
Proof.
  unfold ScrapBin.predict_marker_positions. cbn [fst snd].
  destruct (found !! i) as [data|] eqn:Hf.
  - rewrite (predict_fold_velocity_in _ last _ _ i data);
      [done|apply NoDup_fst_map_to_list|by apply elem_of_map_to_list].
  - destruct (predict_fold_other (ScrapBin.elapsed current_time last_update_time)
                last (map_to_list found) (∅, marker_velocities) i) as [_ ->]; [|done].
    intros Hin. apply list_elem_of_fmap in Hin as ([j d] & -> & Hin).
    apply elem_of_map_to_list in Hin. simpl in Hf. congruence.
Qed.

(** X21. The velocity table after [predict_marker_positions]: the estimate of a
    marker seen now and in the stored snapshot, within the valid [dt] range,
    becomes the smoothed velocity; every other estimate is kept, those of
    markers that are no longer visible included, so the table never loses an
    entry. *)
Theorem prediction_updates_velocity_table (current_time : Q) (last : gmap Z marker)
    (marker_velocities : gmap Z vec3) (last_update_time : option Q)
    (found : gmap Z marker) (i : Z) :
  let dt := ScrapBin.elapsed current_time last_update_time in
  let table :=
    (ScrapBin.predict_marker_positions current_time last marker_velocities
       last_update_time found).1.2 in
  table !! i
  = match found !! i, last !! i with
    | Some data, Some last_data =>
        if Qgtb dt 0 && Qltb dt (1 # 10)
        then Some (ScrapBin.smooth (marker_velocities !! i)
                     (ScrapBin.instant_velocity data last_data dt))
        else marker_velocities !! i
    | _, _ => marker_velocities !! i
    end
  ∧ (is_Some (marker_velocities !! i) → is_Some (table !! i)).
Proof.
  intros dt table. unfold table. rewrite predict_velocity_lookup. fold dt.
  unfold velocity_for.
  destruct (found !! i) as [data|]; [|done].
  destruct (last !! i) as [last_data|]; [|done].
  destruct (Qgtb dt 0 && Qltb dt (1 # 10)); [|done].
  split; [done|]. intros _. by eexists.
Qed.

(** X22. A marker whose stored velocity estimate already equals its velocity
    since the stored snapshot keeps that estimate, and is broadcast at the raw
    position plus that velocity times the lookahead of 0.02 s. *)
Theorem constant_velocity_is_a_fixed_point (current_time : Q)
    (last : gmap Z marker) (marker_velocities : gmap Z vec3)
    (last_update_time : option Q) (found : gmap Z marker) (i : Z)
    (data last_data : marker) (v_old : vec3) :
  let dt := ScrapBin.elapsed current_time last_update_time in
  found !! i = Some data →
  last !! i = Some last_data →
  marker_velocities !! i = Some v_old →
  (0 < dt)%Q → (dt < 1 # 10)%Q →
  (∀ k, vget v_old k == (vget (position data) k - vget (position last_data) k) / dt)%Q →
  ∃ p v, (ScrapBin.predict_marker_positions current_time last marker_velocities
            last_update_time found).1.1 !! i = Some p
         ∧ (ScrapBin.predict_marker_positions current_time last marker_velocities
              last_update_time found).1.2 !! i = Some v
         ∧ ∀ k, (vget v k == vget v_old k)%Q
                ∧ (vget (position p) k
                   == vget (position data) k + vget v_old k * (2 # 100))%Q.
Proof.
  intros dt Hf Hl Hv Hpos Hlt Hconst.
  rewrite (predict_marker_positions_lookup _ _ _ _ _ _ _ Hf).
  rewrite predict_velocity_lookup, Hf, Hv. fold dt.
  unfold predicted_for, velocity_for. rewrite Hl.
  apply Qgtb_true in Hpos. apply Qltb_true in Hlt. rewrite Hpos, Hlt. cbn [andb].
  eexists _, _. split; [done|]. split; [done|]. intros k.
  assert (Hs : (vget (ScrapBin.smooth (Some v_old)
                        (ScrapBin.instant_velocity data last_data dt)) k
                == vget v_old k)%Q).
  { specialize (Hconst k). destruct k; cbn [vget ScrapBin.smooth
      ScrapBin.instant_velocity vx vy vz] in *; rewrite <- Hconst;
      unfold ScrapBin.prediction_alpha; ring. }
  split; [done|].
  destruct k; cbn [vget ScrapBin.extrapolate position vx vy vz] in *;
    rewrite Hs; reflexivity.
Qed.

(** Marker 7 moving away at 0.2 per second, with that estimate stored. *)
Lemma constant_velocity_is_a_fixed_point_witness :
  ∃ p, (ScrapBin.predict_marker_positions 0 {[ 7%Z := marker7_near ]}
          {[ 7%Z := velocity_away ]} None {[ 7%Z := marker7_step ]}).1.1 !! 7%Z
       = Some p
       ∧ (vz (position p) == 10106 # 10000)%Q.
Proof.
  destruct (constant_velocity_is_a_fixed_point 0 {[ 7%Z := marker7_near ]}
              {[ 7%Z := velocity_away ]} None {[ 7%Z := marker7_step ]} 7%Z
              marker7_step marker7_near velocity_away
              (lookup_singleton_eq _ _) (lookup_singleton_eq _ _)
              (lookup_singleton_eq _ _))
    as (p & v & Hp & _ & Hk); [reflexivity|reflexivity| |].
  - intros k. destruct k; reflexivity.
  - exists p. split; [exact Hp|]. destruct (Hk Z3) as [_ Hz]. cbn [vget] in Hz.
    rewrite Hz. reflexivity.
Defined.

(** ** [calculate_fps] *)

Lemma fps_run_snoc (s : fps_state) (t : Q) (times : list Q) :
  fps_run s (times ++ [t])
  = ((calculate_fps (fps_run s times).1 t).1,
     (fps_run s times).2 ++ [(calculate_fps (fps_run s times).1 t).2]).
Proof. apply (foldl_collect_snoc calculate_fps). Qed.

Lemma calculate_fps_counter (s : fps_state) (t : Q) :
  fps_counter (calculate_fps s t).1 = S (fps_counter s).
Proof.
  unfold calculate_fps. destruct (_ =? 0)%nat; [destruct (Qeq_bool _ _)|]; done.
Qed.

Lemma calculate_fps_silent (s : fps_state) (t : Q) :
  (calculate_fps s t).2 = NoReport ↔ (S (fps_counter s) mod 30 ≠ 0)%nat.
Proof.
  unfold calculate_fps. destruct (_ =? 0)%nat eqn:E.
  - apply Nat.eqb_eq in E. destruct (Qeq_bool _ _); split; intros; done.
  - apply Nat.eqb_neq in E. done.
Qed.

(** X23. [calculate_fps] counts every call, also one that raises, and is silent
    except on every thirtieth call: the k-th call of a run reports or raises
    exactly when the counter reaches a multiple of 30. *)
Theorem fps_reported_every_thirtieth_call (s : fps_state) (times : list Q) :
  fps_counter (fps_run s times).1 = (fps_counter s + length times)%nat
  ∧ length (fps_run s times).2 = length times
  ∧ ∀ k r, (fps_run s times).2 !! k = Some r →
           (r = NoReport ↔ ((fps_counter s + S k) mod 30 ≠ 0)%nat).
Proof.
  induction times as [|t times IH] using rev_ind.
  - split; [simpl; lia|]. split; [done|]. intros k r Hk. done.
  - destruct IH as (Hc & Hlen & Hrep). rewrite fps_run_snoc. cbn [fst snd].
    rewrite calculate_fps_counter, Hc, !length_app, Hlen. cbn [length].
    split; [lia|]. split; [done|]. intros k r Hk.
    destruct (decide (k < length times)%nat) as [Hlt|Hge].
    + rewrite lookup_app_l in Hk by lia. by apply Hrep.
    + rewrite lookup_app_r in Hk by lia.
      assert (k = length times) as ->.
      { apply lookup_lt_Some in Hk. simpl in Hk. lia. }
      rewrite Hlen, Nat.sub_diag in Hk. injection Hk as <-.
      rewrite calculate_fps_silent, Hc.
      by replace (fps_counter s + S (length times))%nat
        with (S (fps_counter s + length times)) by lia.
Qed.

(** X24. On a reporting call [calculate_fps] raises [ZeroDivisionError] exactly
    when the clock has not moved since the last report; otherwise the rate it
    prints times the elapsed time is 30, and the clock reading becomes the new
    start time. *)
Theorem fps_report_value (s : fps_state) (current_time : Q) :
  (S (fps_counter s) mod 30 = 0)%nat →
  ((calculate_fps s current_time).2 = ZeroDivision
     ↔ (current_time == fps_start_time s)%Q)
  ∧ (∀ fps, (calculate_fps s current_time).2 = Report fps →
       (fps * (current_time - fps_start_time s) == 30)%Q
       ∧ fps_start_time (calculate_fps s current_time).1 = current_time).
Proof.
  intros Hk. unfold calculate_fps. apply Nat.eqb_eq in Hk. rewrite Hk.
  destruct (Qeq_bool (current_time - fps_start_time s) 0) eqn:E; cbn [fst snd].
  - apply Qeq_bool_iff in E. split; [|done]. split; [|done]. intros _.
    rewrite <- (Qplus_0_l (fps_start_time s)), <- E. ring.
  - apply Qeq_bool_neq in E. split.
    + split; [done|]. intros Heq. exfalso. apply E. rewrite Heq. ring.
    + intros fps [= <-]. split; [|done]. field. exact E.
Qed.

(** The thirtieth call one second and a half after the start prints 20. *)
Lemma fps_report_value_witness :
  (calculate_fps (FpsState 29 0) (3 # 2)).2 = Report (30 / ((3 # 2) - 0))
  ∧ (30 / ((3 # 2) - 0) * ((3 # 2) - 0) == 30)%Q.
Proof.
  split; [reflexivity|].
  exact (proj1 (proj2 (fps_report_value (FpsState 29 0) (3 # 2) eq_refl)
                  (30 / ((3 # 2) - 0))%Q eq_refl)).
Defined.

(** ** [list_available_cameras] *)

Lemma scan_cameras_stops (isOpened : nat → bool) (k fuel i : nat) (found : list nat) :
  (i ≤ k)%nat →
  (∀ j, (i ≤ j < k)%nat → isOpened j = true) →
  isOpened k = false →
  (k - i < fuel)%nat →
  scan_cameras isOpened fuel i found = Some (found ++ seq i (k - i)).
Proof.
  revert i found. induction fuel as [|fuel IH]; intros i found Hik Hopen Hk Hfuel;
    [lia|].
  cbn [scan_cameras]. destruct (decide (i = k)) as [->|Hne].
  - rewrite Hk, Nat.sub_diag. simpl. by rewrite app_nil_r.
  - rewrite Hopen by lia. rewrite IH; [|lia| |done|lia].
    + replace (k - i)%nat with (S (k - S i)) by lia. cbn [seq].
      by rewrite <- app_assoc.
    + intros j Hj. apply Hopen. lia.
Qed.

Lemma scan_cameras_runs_on (isOpened : nat → bool) (fuel i : nat) (found : list nat) :
  (∀ j, isOpened j = true) → scan_cameras isOpened fuel i found = None.
Proof.
  intros Hall. revert i found. induction fuel as [|fuel IH]; intros i found; [done|].
  cbn [scan_cameras]. by rewrite Hall.
Qed.

(** X25. [list_available_cameras] returns the indices below the first one that
    does not open, and stops there: a camera behind a gap is never listed.
    The loop ends as soon as some index does not open; any fuel above that
    index suffices. *)
Theorem cameras_listed_up_to_first_gap (isOpened : nat → bool) (k : nat) :
  (∀ j, (j < k)%nat → isOpened j = true) →
  isOpened k = false →
  ∀ fuel, (k < fuel)%nat → list_available_cameras isOpened fuel = Some (seq 0 k).
Proof.
  intros Hopen Hk fuel Hfuel. unfold list_available_cameras.
  rewrite (scan_cameras_stops isOpened k); [|lia| |done|lia].
  - by rewrite Nat.sub_0_r.
  - intros j Hj. apply Hopen. lia.
Qed.

(** Cameras 0, 1 and 3 exist: camera 3 is not listed. *)
Lemma cameras_listed_up_to_first_gap_witness :
  list_available_cameras (λ i, bool_decide (i ∈ [0; 1; 3]%nat)) 5 = Some [0; 1]%nat.
Proof.
  apply (cameras_listed_up_to_first_gap
           (λ i, bool_decide (i ∈ [0; 1; 3]%nat)) 2).
  - intros j Hj. destruct j as [|[|j]]; [reflexivity|reflexivity|lia].
  - reflexivity.
  - lia.
Defined.

(** ** The capture queue between its two threads *)

(** What every step of either thread keeps: the frames read so far are a
    prefix of the camera's frames; the frames handed over, then the queued
    ones, then the one in the capture thread's hand, are a subsequence of
    them; and the queue has [maxsize] 2 and at most two items. *)
Lemma thread_step_invariant {A} (frames read : list A) (p : pipeline A)
    (t : thread) :
  frames = read ++ camera p →
  sublist (handed_over p ++ Queue.items (frame_queue p) ++ in_hand (capture_at p))
          read →
  capture_inv (frame_queue p) →
  ∃ read',
    frames = read' ++ camera (thread_step p t)
    ∧ sublist (handed_over (thread_step p t)
               ++ Queue.items (frame_queue (thread_step p t))
               ++ in_hand (capture_at (thread_step p t)))
              read'
    ∧ capture_inv (frame_queue (thread_step p t)).
Proof.
  intros Hf Hs Hc. destruct p as [cam pc q done_].
  cbn [camera capture_at frame_queue handed_over] in *.
  pose proof Hc as [Hm Hl].
  destruct t; cbn [thread_step].
  - unfold capture_step. cbn [camera capture_at frame_queue handed_over].
    destruct pc as [|item|item].
    + destruct cam as [|item rest].
      * exists read. done.
      * exists (read ++ [item]).
        cbn [camera capture_at frame_queue handed_over].
        split; [by rewrite <- app_assoc|]. split; [|done].
        assert (Hh : in_hand (if Queue.full q then AtDrop item else AtPut item)
                     = [item]) by (by destruct (Queue.full q)).
        rewrite Hh. cbn [in_hand] in Hs. rewrite app_nil_r in Hs.
        rewrite app_assoc. by apply sublist_app.
    + exists read. cbn [camera capture_at frame_queue handed_over in_hand] in *.
      split; [done|]. unfold Queue.get_nowait.
      destruct (Queue.items q) as [|y rest] eqn:E.
      * rewrite E. split; [exact Hs|exact Hc].
      * cbn [Queue.items Queue.maxsize].
        split; [|split; [done|]].
        -- etrans; [|exact Hs]. apply sublist_app; [done|]. by apply sublist_cons.
        -- cbn [Queue.items length] in *. lia.
    + exists read. cbn [camera capture_at frame_queue handed_over in_hand] in *.
      split; [done|]. unfold Queue.put_nowait, Queue.qsize. rewrite Hm.
      destruct ((0 <? 2)%Z && (2 <=? Z.of_nat (length (Queue.items q)))%Z) eqn:E.
      * split; [|done]. rewrite app_nil_r. etrans; [|exact Hs].
        apply sublist_app; [done|]. by apply sublist_inserts_r.
      * cbn [Queue.items Queue.maxsize]. split; [by rewrite app_nil_r|].
        split; [done|]. cbn [Queue.items]. rewrite length_app. cbn [length].
        apply andb_false_iff in E as [E|E]; [done|].
        apply Z.leb_gt in E. lia.
  - unfold process_step, Queue.get, Queue.get_nowait.
    cbn [camera capture_at frame_queue handed_over].
    destruct (Queue.items q) as [|y rest] eqn:E.
    + exists read. cbn [camera capture_at frame_queue handed_over].
      rewrite E. split; [done|]. split; [exact Hs|exact Hc].
    + exists read.
      cbn [camera capture_at frame_queue handed_over Queue.items Queue.maxsize].
      split; [done|]. split; [by rewrite <- app_assoc|]. split; [done|].
      cbn [Queue.items length] in *. lia.
Qed.

(** X1. Frames reach the processor in the order of their capture, each at
    most once, under any interleaving of the steps of the two threads, the
    three queue calls of the capture thread being separate steps: the frames
    read so far are a prefix of the camera's frames, and the frames handed to
    the processor, then the frames queued, then the frame that the capture
    thread holds, form a subsequence of them; the queue never holds more than
    two frames. *)
Theorem frames_are_processed_in_capture_order {A} (frames : list A)
    (schedule : list thread) :
  ∃ read,
    frames = read ++ camera (schedule_run (pipeline_init frames) schedule)
    ∧ sublist (handed_over (schedule_run (pipeline_init frames) schedule)
               ++ Queue.items (frame_queue (schedule_run (pipeline_init frames) schedule))
               ++ in_hand (capture_at (schedule_run (pipeline_init frames) schedule)))
              read
    ∧ (length (Queue.items (frame_queue (schedule_run (pipeline_init frames) schedule)))
       ≤ 2)%nat.
Proof.
  assert (Hinv : ∀ (schedule : list thread) (p : pipeline A) (read : list A),
            frames = read ++ camera p →
            sublist (handed_over p ++ Queue.items (frame_queue p)
                     ++ in_hand (capture_at p)) read →
            capture_inv (frame_queue p) →
            ∃ read',
              frames = read' ++ camera (schedule_run p schedule)
              ∧ sublist (handed_over (schedule_run p schedule)
                         ++ Queue.items (frame_queue (schedule_run p schedule))
                         ++ in_hand (capture_at (schedule_run p schedule)))
                        read'
              ∧ capture_inv (frame_queue (schedule_run p schedule))).
  { clear schedule. intros schedule.
    induction schedule as [|t schedule IH]; intros p read Hf Hs Hc.
    - exists read. done.
    - destruct (thread_step_invariant frames read p t Hf Hs Hc)
        as (read' & Hf' & Hs' & Hc').
      exact (IH (thread_step p t) read' Hf' Hs' Hc'). }
  destruct (Hinv schedule (pipeline_init frames) []) as (read & Hf & Hs & _ & Hl).
  - done.
  - done.
  - split; [done|]. cbn. lia.
  - exists read. done.
Qed.

(** The state that needs the separate steps: with the frames 1 and 2
    queued, the capture thread finds the queue full, the processor takes
    frame 1, and the capture thread then drops frame 2 and queues frame 3. *)
Lemma capture_drop_after_processor_took_a_frame :
  let p := schedule_run (pipeline_init [1; 2; 3]%nat)
             [CaptureThread; CaptureThread; CaptureThread; CaptureThread;
              CaptureThread; ProcessThread; CaptureThread; CaptureThread] in
  Queue.items (frame_queue p) = [3%nat] ∧ handed_over p = [1%nat].
Proof. split; reflexivity. Qed.

(** ** The two [detect_markers] *)

Lemma simplified_detect_loop_agrees `{Detector Frame Corners}
    (dets : list (Z * Corners)) (found : gmap Z marker) (log : list Z) :
  match Simplified.detect_loop dets found with
  | Ok result => detect_loop dets found log = (result, log)
  | Raise _ => (detect_loop dets found log).2 ≠ log
  end.
Proof.
  revert found log. induction dets as [|[i c] dets IH]; intros found log; [done|].
  cbn [Simplified.detect_loop detect_loop].
  destruct (solve_pose c) as [[[pos rot]|]|e]; [apply IH|apply IH|].
  rewrite detect_loop_log. intros Heq.
  apply (f_equal length) in Heq. rewrite !length_app in Heq. simpl in Heq. lia.
Qed.

(** X6. [detect_markers] of [src/design_history_tracker.py] returns a map
    exactly when [detect_markers] of [collage_tracker.py] returns that map
    with nothing logged, that is, when no per-marker step raised; the two
    differ only in that the former has no handler. *)
Theorem simplified_detect_markers_agrees `{Detector Frame Corners}
    (frame : Frame) (found : gmap Z marker) :
  Simplified.detect_markers frame = Ok found
  ↔ detect_markers frame = Ok (found, []).
Proof.
  unfold Simplified.detect_markers, detect_markers.
  destruct (detect_frame frame) as [[dets|]|e].
  - pose proof (simplified_detect_loop_agrees dets ∅ []) as Ha.
    destruct (Simplified.detect_loop dets ∅) as [result|e] eqn:E.
    + rewrite Ha. split; by intros [= ->].
    + split; [done|]. intros [= Heq]. rewrite Heq in Ha. by destruct Ha.
  - split; by intros [= <-].
  - done.
Qed.

(** ** The whole iteration of the orchestrator loop *)

Lemma calculate_fps_zero_division (s : fps_state) (t : Q) :
  (calculate_fps s t).2 = ZeroDivision
  ↔ (S (fps_counter s) mod 30 = 0)%nat ∧ (t == fps_start_time s)%Q.
Proof.
  unfold calculate_fps. destruct (_ =? 0)%nat eqn:Hk.
  - apply Nat.eqb_eq in Hk.
    destruct (Qeq_bool (t - fps_start_time s) 0) eqn:E; cbn [snd].
    + apply Qeq_bool_iff in E. split; [|done]. intros _. split; [done|].
      rewrite <- (Qplus_0_l (fps_start_time s)), <- E. ring.
    + apply Qeq_bool_neq in E. split; [done|]. intros [_ Heq].
      exfalso. apply E. rewrite Heq. ring.
  - apply Nat.eqb_neq in Hk. cbn [snd]. split; [done|]. by intros [? _].
Qed.

(** An iteration whose body does nothing is the call of [calculate_fps]. *)
Lemma main_loop_iteration_suppressed `{Transport} (st : tracker) (fps : fps_state)
    (r : processing_result) (now now_fps : Q) :
  should_broadcast (markers r) (last_states st) = false →
  (main_loop_iteration st fps r now now_fps).1.1
  = (st, (calculate_fps fps now_fps).1)
  ∧ (main_loop_iteration st fps r now now_fps).2 = []
  ∧ ((main_loop_iteration st fps r now now_fps).1.2 = Some ZeroDivisionError
     ↔ (calculate_fps fps now_fps).2 = ZeroDivision)
  ∧ ((main_loop_iteration st fps r now now_fps).1.2 = None
     ↔ (calculate_fps fps now_fps).2 ≠ ZeroDivision).
Proof.
  intros Hb. unfold main_loop_iteration.
  rewrite (main_loop_body_suppressed st r now Hb).
  destruct (calculate_fps fps now_fps) as [fps1 [|rate|]]; cbn [fst snd];
    repeat split; done.
Qed.

(** X11. An iteration of [main_loop] whose candidate is suppressed by the
    broadcast gate: the history gate suppresses it too, so nothing is
    recorded and nothing is delivered, and the registry, the configuration,
    the log, the last state and the frame counter are what they were.  The
    iteration still counts in [calculate_fps], and it raises
    [ZeroDivisionError], ending the loop, exactly when this is a thirtieth
    call on which the clock reads the start time of the measurement;
    otherwise it completes. *)
Theorem suppressed_iteration_changes_nothing `{Transport}
    (st : tracker) (fps : fps_state) (r : processing_result) (now now_fps : Q) :
  should_broadcast (markers r) (last_states st) = false →
  should_update_history (markers r) (last_states st) = false
  ∧ (main_loop_iteration st fps r now now_fps).1.1.1 = st
  ∧ (main_loop_iteration st fps r now now_fps).2 = []
  ∧ fps_counter (main_loop_iteration st fps r now now_fps).1.1.2
    = S (fps_counter fps)
  ∧ ((main_loop_iteration st fps r now now_fps).1.2 = Some ZeroDivisionError
     ↔ (S (fps_counter fps) mod 30 = 0)%nat ∧ (now_fps == fps_start_time fps)%Q)
  ∧ ((main_loop_iteration st fps r now now_fps).1.2 = None
     ↔ ¬ ((S (fps_counter fps) mod 30 = 0)%nat
          ∧ (now_fps == fps_start_time fps)%Q)).
Proof.
  intros Hb.
  destruct (main_loop_iteration_suppressed st fps r now now_fps Hb)
    as (Hst & Hsent & Hz & Hn).
  split; [by apply gate_suppressed_mono|].
  split; [by rewrite Hst|]. split; [done|].
  split; [by rewrite Hst; apply calculate_fps_counter|].
  split; [by rewrite Hz, calculate_fps_zero_division|].
  by rewrite Hn, calculate_fps_zero_division.
Qed.

(** Seeing marker 7 where it was last broadcast changes nothing but the
    call counter, which goes from 0 to 1. *)
Lemma suppressed_iteration_changes_nothing_witness :
  (@main_loop_iteration quiet_transport tracker_seen7 (FpsState 0 0)
     (ProcessingResult 0 {[ 7%Z := marker7_near ]} 0) 0 0).1.1.1 = tracker_seen7
  ∧ fps_counter
      (@main_loop_iteration quiet_transport tracker_seen7 (FpsState 0 0)
         (ProcessingResult 0 {[ 7%Z := marker7_near ]} 0) 0 0).1.1.2 = 1%nat.
Proof.
  destruct (@suppressed_iteration_changes_nothing quiet_transport tracker_seen7
              (FpsState 0 0) (ProcessingResult 0 {[ 7%Z := marker7_near ]} 0) 0 0)
    as (_ & Hst & _ & Hc & _); [vm_compute; reflexivity|].
  split; [exact Hst|exact Hc].
Defined.

(** X12. Once an iteration has completed, an iteration on a result with the
    same markers records nothing and delivers nothing, and leaves the
    registry, the configuration, the log, the last state and the frame
    counter as they are: a snapshot is recorded and broadcast at most once in
    a row.  It only counts in [calculate_fps]. *)
Theorem repeated_result_is_suppressed `{Transport} (st st1 : tracker)
    (fps fps1 : fps_state) (r r' : processing_result) (now now_fps now' now_fps' : Q)
    (sent : list (nat * string)) :
  main_loop_iteration st fps r now now_fps = (((st1, fps1), None), sent) →
  markers r' = markers r →
  (main_loop_iteration st1 fps1 r' now' now_fps').1.1.1 = st1
  ∧ (main_loop_iteration st1 fps1 r' now' now_fps').2 = []
  ∧ fps_counter (main_loop_iteration st1 fps1 r' now' now_fps').1.1.2
    = S (fps_counter fps1).
Proof.
  intros Hit Hm.
  assert (Hbody : (main_loop_body st r now).1 = (st1, None)).
  { unfold main_loop_iteration in Hit.
    destruct (main_loop_body st r now) as [[st2 [e|]] sent2]; [by inversion Hit|].
    destruct (calculate_fps fps now_fps) as [fps2 [|rate|]]; by inversion Hit. }
  assert (Hb : should_broadcast (markers r') (last_states st1) = false).
  { rewrite Hm. pose proof (main_loop_body_last_states st r now) as Hl.
    rewrite Hbody in Hl. cbn [fst snd] in Hl. rewrite Hl.
    destruct (should_broadcast (markers r) (last_states st)) eqn:Hb; [|done].
    unfold should_broadcast. by apply gate_identical. }
  destruct (main_loop_iteration_suppressed st1 fps1 r' now' now_fps' Hb)
    as (Hst & Hsent & _ & _).
  split; [by rewrite Hst|]. split; [done|].
  rewrite Hst. apply calculate_fps_counter.
Qed.

(** The same snapshot twice: the second iteration only counts. *)
Lemma repeated_result_is_suppressed_witness :
  ∃ st1 fps1 sent,
    @main_loop_iteration quiet_transport tracker_seen7 (FpsState 0 0)
      (ProcessingResult 0 {[ 7%Z := marker7_jump ]} 0) 0 0
    = (((st1, fps1), None), sent)
    ∧ (@main_loop_iteration quiet_transport st1 fps1
         (ProcessingResult 1 {[ 7%Z := marker7_jump ]} 0) 1 1).1.1.1 = st1.
Proof.
  eexists _, _, _. split; [vm_compute; reflexivity|].
  refine (proj1 (@repeated_result_is_suppressed quiet_transport tracker_seen7 _
                   (FpsState 0 0) _
                   (ProcessingResult 0 {[ 7%Z := marker7_jump ]} 0)
                   (ProcessingResult 1 {[ 7%Z := marker7_jump ]} 0)
                   0 0 1 1 _ _ eq_refl)).
  vm_compute. reflexivity.
Defined.
